(** * Expense tracker: a shallow embedding of [main.py]

    The program is a handful of tool functions over one SQLite table.  Each
    function opens a connection, runs one SQL statement and returns plain
    Python data.  The embedding keeps that shape:

    - the table [expenses] is a list of rows in rowid order, together with
      the [AUTOINCREMENT] counter that SQLite keeps in [sqlite_sequence];
    - the calls of the [sqlite3] module ([connect], [execute], the commit or
      rollback done by [with]) are operations of a small state-and-error
      monad over a [world]; the world also carries a schedule of engine
      faults, so that a failing disk or a lock timeout can be injected at
      any engine call, and a log of the engine calls made;
    - every SQL statement of the source is evaluated clause by clause
      ([WHERE], [GROUP BY] with [SUM], [ORDER BY]);
    - Python [str] values are byte strings (their UTF-8 encoding), which is
      what SQLite's default [BINARY] collation compares;
    - amounts are binary64 floats: one that is not a number is bound as
      [NULL], which the column [amount REAL NOT NULL] refuses; negative
      zero is stored as zero; a [SUM] that is not a number comes back as
      [NULL], that is [None]. *)

From Stdlib Require Import ZArith List String Ascii Bool Lia.
From Stdlib Require Import Sorting.Sorted Sorting.Permutation.
From Stdlib Require Import Floats.PrimFloat.
Import ListNotations.

Local Open Scope string_scope.
Local Open Scope Z_scope.

(** ** Values *)

(** A value as SQLite stores it and as [sqlite3] hands it to Python
    ([None], [int], [float], [str]). *)
Inductive value : Type :=
| VNull
| VInteger (z : Z)
| VReal (x : float)
| VText (s : string).

(** [BINARY] collation: [memcmp] on the bytes, the shorter string first on a
    common prefix.  This is [String.compare]. *)
Definition text_le (a b : string) : bool := String.leb a b.
Definition text_lt (a b : string) : bool := String.ltb a b.

(** [x BETWEEN lo AND hi] is [x >= lo AND x <= hi]. *)
Definition between (x lo hi : string) : bool := text_le lo x && text_le x hi.

(** ** Python dictionaries

    A [dict] keeps its keys in insertion order; assigning to a key that is
    present replaces the value in place. *)
Definition dict : Type := list (string * value).

Fixpoint dict_set (k : string) (v : value) (d : dict) : dict :=
  match d with
  | [] => [(k, v)]
  | (k', v') :: rest =>
      if String.eqb k' k then (k', v) :: rest else (k', v') :: dict_set k v rest
  end.

(** [dict(pairs)] *)
Definition dict_of (pairs : list (string * value)) : dict :=
  fold_left (fun d kv => dict_set (fst kv) (snd kv) d) pairs [].

Fixpoint dict_get (k : string) (d : dict) : option value :=
  match d with
  | [] => None
  | (k', v) :: rest => if String.eqb k' k then Some v else dict_get k rest
  end.

Definition keys (d : dict) : list string := map fst d.

(** [zip] *)
Definition zip {A B : Type} (xs : list A) (ys : list B) : list (A * B) :=
  combine xs ys.

(** ** The relation [expenses] *)

(** One column definition of a [CREATE TABLE] statement. *)
Record column : Type := mkColumn {
  col_name : string;
  col_type : string;
  col_notnull : bool;
  col_default : option string;
  col_autoincrement : bool
}.

(** The column list of the [CREATE TABLE] in [init_db]. *)
Definition expenses_schema : list column :=
  [ mkColumn "id" "INTEGER" false None true;
    mkColumn "date" "TEXT" true None false;
    mkColumn "amount" "REAL" true None false;
    mkColumn "category" "TEXT" true None false;
    mkColumn "subcategory" "TEXT" false (Some "") false;
    mkColumn "note" "TEXT" false (Some "") false ].

(** One stored row. *)
Record expense : Type := mkExpense {
  row_id : Z;
  row_date : string;
  row_amount : float;
  row_category : string;
  row_subcategory : string;
  row_note : string
}.

(** The table: its schema, its rows in rowid order, and the largest rowid
    ever handed out (the [sqlite_sequence] entry of an [AUTOINCREMENT]
    table). *)
Record table : Type := mkTable {
  tbl_schema : list column;
  tbl_rows : list expense;
  tbl_seq : Z
}.

(** The database file: the relation is absent or present. *)
Definition database : Type := option table.

Definition rows_of (db : database) : list expense :=
  match db with
  | None => []
  | Some t => tbl_rows t
  end.

Definition ids (rs : list expense) : list Z := map row_id rs.

(** The largest rowid SQLite can assign. *)
Definition MAX_ROWID : Z := 9223372036854775807.

Definition max_rowid (rs : list expense) : Z :=
  fold_right Z.max 0 (ids rs).

(** The rowid an [AUTOINCREMENT] table gives its next row: one more than
    the largest rowid it has ever held. *)
Definition next_rowid (t : table) : Z :=
  Z.max (tbl_seq t) (max_rowid (tbl_rows t)) + 1.

(** ** Errors, outcomes and the world *)

Inductive Error : Type :=
| OperationalError (msg : string)
| IntegrityError (msg : string)
| ProgrammingError (msg : string)
| FileNotFoundError
| UnicodeDecodeError.

Inductive outcome (A : Type) : Type :=
| Return (a : A)
| Raise (e : Error).
Arguments Return {A} a.
Arguments Raise {A} e.

(** The SQL statements of the source.  The placeholders of a [SELECT] are
    bound positionally from its parameter list. *)
Inductive cond : Type :=
| DateBetween    (* date BETWEEN ? AND ? *)
| CategoryEq.    (* category = ? *)

Inductive statement : Type :=
| CreateTableIfNotExists (cols : list column)
| InsertExpense (date : string) (amount : float)
                (category subcategory note : string)
| SelectExpenses (where_ : list cond) (params : list string)
| SelectTotals (where_ : list cond) (params : list string).

(** The kind of an engine call, as the log records it. *)
Inductive event : Type :=
| EvConnect (path : string)
| EvExecute (s : statement)
| EvCommit
| EvRollback
| EvOpen (path : string).

(** The world a tool call runs in.
    - [disk]: the committed content of the database file;
    - [txn]: the working copy of the open transaction of the current
      connection, when there is one;
    - [faults]: what the engine does at its next calls, one entry per call
      ([Some e]: the call fails with [e]); past the end nothing fails;
    - [files]: the text files next to the program, by name;
    - [log]: the engine and file calls made so far, oldest first. *)
Record world : Type := mkWorld {
  disk : database;
  txn : option database;
  faults : list (option Error);
  files : list (string * string);
  log : list event
}.

Definition M (A : Type) : Type := world -> outcome A * world.

Definition ret {A : Type} (a : A) : M A := fun w => (Return a, w).

Definition raise {A : Type} (e : Error) : M A := fun w => (Raise e, w).

Definition bind {A B : Type} (m : M A) (k : A -> M B) : M B :=
  fun w =>
    match m w with
    | (Return a, w') => k a w'
    | (Raise e, w') => (Raise e, w')
    end.

Notation "x <- m ;; k" := (bind m (fun x => k))
  (at level 61, m at next level, right associativity).
Notation "m ;;; k" := (bind m (fun _ => k))
  (at level 61, right associativity).

Definition set_disk (d : database) (w : world) : world :=
  mkWorld d (txn w) (faults w) (files w) (log w).
Definition set_txn (t : option database) (w : world) : world :=
  mkWorld (disk w) t (faults w) (files w) (log w).
Definition set_faults (fs : list (option Error)) (w : world) : world :=
  mkWorld (disk w) (txn w) fs (files w) (log w).
Definition logged (ev : event) (w : world) : world :=
  mkWorld (disk w) (txn w) (faults w) (files w) (log w ++ [ev])%list.

(** One engine call: it is logged, and it fails when the schedule says so. *)
Definition engine_call (ev : event) : M unit :=
  fun w =>
    let w := logged ev w in
    match faults w with
    | [] => (Return tt, w)
    | None :: fs => (Return tt, set_faults fs w)
    | Some e :: fs => (Raise e, set_faults fs w)
    end.

(** What the connection sees: its open transaction, else the file. *)
Definition view (w : world) : database :=
  match txn w with
  | Some d => d
  | None => disk w
  end.

(** A write outside a transaction is committed at once (autocommit); inside
    one it goes to the working copy. *)
Definition write (d : database) (w : world) : world :=
  match txn w with
  | Some _ => set_txn (Some d) w
  | None => set_disk d w
  end.

(** A write of a data-modifying statement: [sqlite3] opens a transaction
    before it when none is open. *)
Definition write_dml (d : database) (w : world) : world :=
  set_txn (Some d) w.

(** ** The clauses of a query *)

Section OrderBy.
Context {A : Type} (leb : A -> A -> bool).

(** [place x l] puts [x] in front of the first element that is not
    smaller. *)
Fixpoint place (x : A) (l : list A) : list A :=
  match l with
  | [] => [x]
  | y :: l' => if leb x y then x :: y :: l' else y :: place x l'
  end.

(** [ORDER BY ... ASC]: rows with equal keys keep their scan order. *)
Definition order_by (l : list A) : list A := fold_right place [] l.
End OrderBy.

Definition id_leb (a b : expense) : bool := row_id a <=? row_id b.

Definition category_leb (a b : string * float) : bool :=
  text_le (fst a) (fst b).

(** [WHERE c1 AND c2 ...] with its placeholders bound from [ps], in order.
    [None] when the number of parameters is not the number of
    placeholders. *)
Fixpoint bind_where (cs : list cond) (ps : list string)
  : option (expense -> bool) :=
  match cs with
  | [] =>
      match ps with
      | [] => Some (fun _ => true)
      | _ :: _ => None
      end
  | DateBetween :: cs' =>
      match ps with
      | lo :: hi :: ps' =>
          option_map
            (fun p r => between (row_date r) lo hi && p r)
            (bind_where cs' ps')
      | _ => None
      end
  | CategoryEq :: cs' =>
      match ps with
      | c :: ps' =>
          option_map
            (fun p r => String.eqb (row_category r) c && p r)
            (bind_where cs' ps')
      | _ => None
      end
  end.

(** [GROUP BY category] with the aggregate [SUM(amount)]: each group keeps
    a running total that starts at zero and takes the amounts in scan
    order. *)
Fixpoint accumulate (c : string) (x : float) (acc : list (string * float))
  : list (string * float) :=
  match acc with
  | [] => [(c, PrimFloat.add 0%float x)]
  | (c', s) :: rest =>
      if String.eqb c' c then (c', PrimFloat.add s x) :: rest
      else (c', s) :: accumulate c x rest
  end.

Definition group_step (acc : list (string * float)) (r : expense)
  : list (string * float) :=
  accumulate (row_category r) (row_amount r) acc.

Definition group_sum (rs : list expense) : list (string * float) :=
  fold_left group_step rs [].

(** The result row of [SELECT id, date, amount, category, subcategory,
    note]. *)
Definition expense_tuple (r : expense) : list value :=
  [ VInteger (row_id r); VText (row_date r); VReal (row_amount r);
    VText (row_category r); VText (row_subcategory r); VText (row_note r) ].

(** A [REAL] as the engine keeps it in a column of [REAL] affinity: a
    value without fractional part is kept as an integer and read back as a
    [REAL], which gives every value back as it was, except negative zero,
    which comes back as zero. *)
Definition stored_real (x : float) : float :=
  if PrimFloat.is_zero x then 0%float else x.

(** A [REAL] as the engine hands it out as the result of an expression:
    what is not a number is handed out as [NULL]. *)
Definition result_real (x : float) : value :=
  if PrimFloat.is_nan x then VNull else VReal x.

(** The result row of [SELECT category, SUM(amount) AS total_amount]. *)
Definition total_tuple (g : string * float) : list value :=
  [ VText (fst g); result_real (snd g) ].

(** ** The [sqlite3] module *)

(** A cursor after [execute]: [description] has one entry per result
    column, its name first and the six entries [sqlite3] leaves [None]
    after it. *)
Record cursor : Type := mkCursor {
  description : list (string * list value);
  fetchall : list (list value);
  lastrowid : value
}.

Definition describe (name : string) : string * list value :=
  (name, [VNull; VNull; VNull; VNull; VNull; VNull]).

Definition no_such_table : Error :=
  OperationalError "no such table: expenses".
Definition database_full : Error :=
  OperationalError "database or disk is full".
Definition not_null_amount : Error :=
  IntegrityError "NOT NULL constraint failed: expenses.amount".
Definition bad_bindings : Error :=
  ProgrammingError "Incorrect number of bindings supplied.".

(** What a statement does once the engine has accepted the call.  An
    [INSERT] is given its rowid first and has its constraints checked
    then: a [float] that is not a number is bound as [NULL], which the
    column [amount REAL NOT NULL] refuses. *)
Definition run_statement (s : statement) : M cursor :=
  fun w =>
    match s with
    | CreateTableIfNotExists cols =>
        match view w with
        | Some _ => (Return (mkCursor [] [] VNull), w)
        | None =>
            (Return (mkCursor [] [] VNull), write (Some (mkTable cols [] 0)) w)
        end
    | InsertExpense d a c sc n =>
        match view w with
        | None => (Raise no_such_table, w)
        | Some t =>
            let i := next_rowid t in
            if MAX_ROWID <? i then (Raise database_full, w)
            else if PrimFloat.is_nan a then (Raise not_null_amount, w)
            else
              (Return (mkCursor [] [] (VInteger i)),
               write_dml
                 (Some (mkTable (tbl_schema t)
                                (tbl_rows t
                                 ++ [mkExpense i d (stored_real a) c sc n])%list
                                i))
                 w)
        end
    | SelectExpenses cs ps =>
        match view w with
        | None => (Raise no_such_table, w)
        | Some t =>
            match bind_where cs ps with
            | None => (Raise bad_bindings, w)
            | Some p =>
                (Return
                   (mkCursor
                      (map describe
                           ["id"; "date"; "amount"; "category";
                            "subcategory"; "note"])
                      (map expense_tuple
                           (order_by id_leb (filter p (tbl_rows t))))
                      VNull),
                 w)
            end
        end
    | SelectTotals cs ps =>
        match view w with
        | None => (Raise no_such_table, w)
        | Some t =>
            match bind_where cs ps with
            | None => (Raise bad_bindings, w)
            | Some p =>
                (Return
                   (mkCursor
                      (map describe ["category"; "total_amount"])
                      (map total_tuple
                           (order_by category_leb
                                     (group_sum (filter p (tbl_rows t)))))
                      VNull),
                 w)
            end
        end
    end.

(** [sqlite3.connect(path)]: a fresh connection has no open
    transaction. *)
Definition connect (path : string) : M unit :=
  engine_call (EvConnect path) ;;; fun w => (Return tt, set_txn None w).

(** [c.execute(sql, params)] *)
Definition execute (s : statement) : M cursor :=
  engine_call (EvExecute s) ;;; run_statement s.

(** [c.commit()]: nothing to do outside a transaction. *)
Definition commit : M unit :=
  fun w =>
    match txn w with
    | None => (Return tt, w)
    | Some d =>
        match engine_call EvCommit w with
        | (Return _, w') => (Return tt, set_txn None (set_disk d w'))
        | (Raise e, w') => (Raise e, w')
        end
    end.

(** [c.rollback()]: nothing to do outside a transaction. *)
Definition rollback : M unit :=
  fun w =>
    match txn w with
    | None => (Return tt, w)
    | Some _ => (Return tt, set_txn None (logged EvRollback w))
    end.

(** [with sqlite3.connect(path) as c: body]: the connection's context
    manager commits when the body ends normally, rolls back and lets the
    exception through when it raises. *)
Definition with_connection {A : Type} (path : string) (body : M A) : M A :=
  connect path ;;;
  fun w =>
    match body w with
    | (Return a, w') => (commit ;;; ret a) w'
    | (Raise e, w') => (rollback ;;; raise e) w'
    end.

(** The connection is a local of the calling function: when the function
    is left the connection goes, and an uncommitted transaction with it. *)
Definition local_connection {A : Type} (body : M A) : M A :=
  fun w =>
    match body w with
    | (r, w') => (r, set_txn None w')
    end.

(** ** The program *)

Definition DB_PATH : string := "expenses.db".
Definition CATEGORIES_PATH : string := "categories.json".

(** [def init_db()] *)
Definition init_db : M unit :=
  local_connection
    (with_connection DB_PATH
       (execute (CreateTableIfNotExists expenses_schema) ;;; ret tt)).

(** A parameter with a default value: [None] stands for an argument the
    caller left out. *)
Definition default_arg (d : string) (a : option string) : string :=
  match a with
  | Some s => s
  | None => d
  end.

(** [def add_expense(date, amount, category, subcategory="", note="")] *)
Definition add_expense (date : string) (amount : float) (category : string)
           (subcategory note : option string) : M dict :=
  let subcategory := default_arg "" subcategory in
  let note := default_arg "" note in
  local_connection
    (with_connection DB_PATH
       (cur <- execute (InsertExpense date amount category subcategory note) ;;
        ret (dict_of [("status", VText "ok"); ("id", lastrowid cur)]))).

(** [def list_expenses(start_date, end_date)] *)
Definition list_expenses (start_date end_date : string) : M (list dict) :=
  local_connection
    (with_connection DB_PATH
       (cur <- execute (SelectExpenses [DateBetween] [start_date; end_date]) ;;
        let cols := map fst (description cur) in
        ret (map (fun r => dict_of (zip cols r)) (fetchall cur)))).

(** The truth value Python gives an optional string: [None] and the empty
    string are false. *)
Definition truthy (s : option string) : bool :=
  match s with
  | None => false
  | Some s => negb (String.eqb s "")
  end.

(** [def summarize(start_date, end_date, category=None)] *)
Definition summarize (start_date end_date : string) (category : option string)
  : M (list dict) :=
  local_connection
    (with_connection DB_PATH
       (let query := [DateBetween] in
        let params := [start_date; end_date] in
        let '(query, params) :=
          if truthy category
          then ((query ++ [CategoryEq])%list,
                (params ++ [default_arg "" category])%list)
          else (query, params) in
        cur <- execute (SelectTotals query params) ;;
        let cols := map fst (description cur) in
        ret (map (fun r => dict_of (zip cols r)) (fetchall cur)))).

(** *** The categories resource *)

Fixpoint read_file (path : string) (fs : list (string * string))
  : option string :=
  match fs with
  | [] => None
  | (p, content) :: rest =>
      if String.eqb p path then Some content else read_file path rest
  end.

Definition byte_in (lo hi : N) (b : ascii) : bool :=
  ((lo <=? N_of_ascii b) && (N_of_ascii b <=? hi))%N.

(** A continuation byte, [0x80..0xBF]. *)
Definition tail_byte (b : ascii) : bool := byte_in 128 191 b.

(** The strict UTF-8 decoder accepts exactly the well-formed sequences: no
    overlong form, no surrogate, nothing above U+10FFFF. *)
Fixpoint utf8_valid (s : string) : bool :=
  match s with
  | EmptyString => true
  | String b0 s1 =>
      if byte_in 0 127 b0 then utf8_valid s1
      else
        match s1 with
        | EmptyString => false
        | String b1 s2 =>
            if byte_in 194 223 b0 then tail_byte b1 && utf8_valid s2
            else
              match s2 with
              | EmptyString => false
              | String b2 s3 =>
                  if byte_in 224 239 b0 then
                    (if byte_in 224 224 b0 then byte_in 160 191 b1
                     else if byte_in 237 237 b0 then byte_in 128 159 b1
                     else tail_byte b1)
                    && tail_byte b2 && utf8_valid s3
                  else
                    match s3 with
                    | EmptyString => false
                    | String b3 s4 =>
                        byte_in 240 244 b0
                        && (if byte_in 240 240 b0 then byte_in 144 191 b1
                            else if byte_in 244 244 b0 then byte_in 128 143 b1
                            else tail_byte b1)
                        && tail_byte b2 && tail_byte b3 && utf8_valid s4
                    end
              end
        end
  end.

Definition CR : ascii := "013"%char.
Definition LF : ascii := "010"%char.

(** Reading in text mode with the default [newline=None]: the line endings
    CR LF and CR come out as LF. *)
Fixpoint universal_newlines (s : string) : string :=
  match s with
  | EmptyString => EmptyString
  | String c rest =>
      if Ascii.eqb c CR then
        match rest with
        | String c' rest' =>
            if Ascii.eqb c' LF then String LF (universal_newlines rest')
            else String LF (universal_newlines rest)
        | EmptyString => String LF EmptyString
        end
      else String c (universal_newlines rest)
  end.

(** [open(path, "r", encoding="utf-8")] then [f.read()] *)
Definition read_text (path : string) : M string :=
  fun w =>
    let w := logged (EvOpen path) w in
    match read_file path (files w) with
    | None => (Raise FileNotFoundError, w)
    | Some bytes =>
        if utf8_valid bytes then (Return (universal_newlines bytes), w)
        else (Raise UnicodeDecodeError, w)
    end.

(** [def categories()] *)
Definition categories : M string := read_text CATEGORIES_PATH.

(** *** The server *)

(** A request to one of the registered tools or to the resource. *)
Inductive call : Type :=
| AddExpense (date : string) (amount : float) (category : string)
             (subcategory note : option string)
| ListExpenses (start_date end_date : string)
| Summarize (start_date end_date : string) (category : option string)
| Categories.

Inductive response : Type :=
| RDict (d : dict)
| RList (ds : list dict)
| RText (s : string).

Definition lift {A B : Type} (f : A -> B) (m : M A) : M B :=
  x <- m ;; ret (f x).

Definition handle (c : call) : M response :=
  match c with
  | AddExpense d a c sc n => lift RDict (add_expense d a c sc n)
  | ListExpenses s e => lift RList (list_expenses s e)
  | Summarize s e c => lift RList (summarize s e c)
  | Categories => lift RText categories
  end.

(** The server answers the requests one after the other; a request that
    raises is answered with the error and the next one is served. *)
Fixpoint serve (cs : list call) (w : world)
  : list (outcome response) * world :=
  match cs with
  | [] => ([], w)
  | c :: cs' =>
      match handle c w with
      | (r, w') =>
          match serve cs' w' with
          | (rs, w'') => (r :: rs, w'')
          end
      end
  end.

(** A world in which nothing has run yet and the engine never fails. *)
Definition fresh : world := mkWorld None None [] [] [].

Definition scenario : list call :=
  [ AddExpense "2024-01-05" 12.5%float "food" (Some "lunch") None;
    AddExpense "2024-01-10" 40%float "transport" None None;
    ListExpenses "2024-01-01" "2024-01-31";
    Summarize "2024-01-01" "2024-01-31" None;
    Summarize "2024-01-01" "2024-01-31" (Some "food");
    Summarize "2024-01-01" "2024-01-31" (Some "rent");
    Summarize "2024-01-01" "2024-01-31" (Some "") ].

(** * Vocabulary of the properties *)

(** The order a boolean comparison stands for. *)
Definition le_of {A : Type} (leb : A -> A -> bool) (a b : A) : Prop :=
  leb a b = true.

(** The sum of a list of amounts, taken from the left and from zero. *)
Definition sum (xs : list float) : float :=
  fold_left PrimFloat.add xs 0%float.

(** The amounts of the rows of one category, in scan order. *)
Definition amounts_of (c : string) (rs : list expense) : list float :=
  map row_amount (filter (fun r => String.eqb (row_category r) c) rs).

(** The total a list of groups holds for a category. *)
Fixpoint assoc (c : string) (acc : list (string * float)) : option float :=
  match acc with
  | [] => None
  | (k, s) :: rest => if String.eqb k c then Some s else assoc c rest
  end.

(** The first failure the engine has in store for its next [n] calls. *)
Fixpoint first_fault (n : nat) (fs : list (option Error)) : option Error :=
  match n with
  | O => None
  | S n' =>
      match fs with
      | [] => None
      | Some e :: _ => Some e
      | None :: fs' => first_fault n' fs'
      end
  end.

(** The engine serves its next [n] calls. *)
Definition quiet (n : nat) (w : world) : Prop :=
  first_fault n (faults w) = None.

(** The date test of both queries: [d1 <= date <= d2] on text. *)
Definition in_range (d1 d2 : string) (r : expense) : bool :=
  (d1 <=? row_date r)%string && (row_date r <=? d2)%string.

(** A row as a record with its six named fields. *)
Definition expense_record (r : expense) : dict :=
  [ ("id", VInteger (row_id r));
    ("date", VText (row_date r));
    ("amount", VReal (row_amount r));
    ("category", VText (row_category r));
    ("subcategory", VText (row_subcategory r));
    ("note", VText (row_note r)) ].

(** A total as a record with its two named fields; a total that is not a
    number shows as [None]. *)
Definition total_record (g : string * float) : dict :=
  [ ("category", VText (fst g)); ("total_amount", result_real (snd g)) ].

(** The answer of a successful [add_expense]. *)
Definition ok_record (i : Z) : dict :=
  [ ("status", VText "ok"); ("id", VInteger i) ].

(** The row test of the query that [summarize] builds. *)
Definition selected (d1 d2 : string) (category : option string) (r : expense)
  : bool :=
  in_range d1 d2 r
  && (if truthy category
      then String.eqb (row_category r) (default_arg "" category)
      else true).

(** The table after a row has been appended under the next rowid. *)
Definition appended (t : table) (date : string) (amount : float)
           (category subcategory note : string) : table :=
  mkTable (tbl_schema t)
          (tbl_rows t
           ++ [mkExpense (next_rowid t) date amount category subcategory note])
          (next_rowid t).

(** The store after the program has started on an empty directory and two
    expenses have been added. *)
Definition ledger : world :=
  Eval vm_compute in
    snd (serve
           [ AddExpense "2024-01-05" 12.5%float "food" (Some "lunch") None;
             AddExpense "2024-01-10" 40%float "transport" None None ]
           (snd (init_db fresh))).

(** The relation of the [ledger]. *)
Definition ledger_table : table :=
  mkTable expenses_schema
    [ mkExpense 1 "2024-01-05" 12.5%float "food" "lunch" "";
      mkExpense 2 "2024-01-10" 40%float "transport" "" "" ]
    2.

(** The field names of an expense record, in the order of the [SELECT]. *)
Definition expense_fields : list string :=
  ["id"; "date"; "amount"; "category"; "subcategory"; "note"].

(** The log entries that are statements. *)
Definition is_execute (ev : event) : bool :=
  match ev with
  | EvExecute _ => true
  | _ => false
  end.

(** How many statements a stretch of the log holds. *)
Definition executions (evs : list event) : nat :=
  List.length (filter is_execute evs).

(** The largest rowid the table has ever held. *)
Definition high_water (db : database) : Z :=
  match db with
  | None => 0
  | Some t => Z.max (tbl_seq t) (max_rowid (tbl_rows t))
  end.

(** The id a response carries, when it is the answer of an insert. *)
Definition returned_id (r : outcome response) : option Z :=
  match r with
  | Return (RDict d) =>
      match dict_get "id" d with
      | Some (VInteger i) => Some i
      | _ => None
      end
  | _ => None
  end.

(** The ids a run of the server returned, in the order of the calls. *)
Fixpoint returned_ids (rs : list (outcome response)) : list Z :=
  match rs with
  | [] => []
  | r :: rs' =>
      match returned_id r with
      | Some i => i :: returned_ids rs'
      | None => returned_ids rs'
      end
  end.

(** The text holds a carriage return. *)
Fixpoint has_cr (s : string) : bool :=
  match s with
  | EmptyString => false
  | String c rest => Ascii.eqb c CR || has_cr rest
  end.

(** Someone edits the categories file. *)
Definition edit_categories (content : string) (w : world) : world :=
  mkWorld (disk w) (txn w) (faults w)
          ((CATEGORIES_PATH, content) :: files w) (log w).

(** A directory with a categories file that is not even JSON. *)
Definition shelf : world :=
  mkWorld None None [] [(CATEGORIES_PATH, "food, transport")] [].

(** A file with a Windows line ending: an opening bracket, CR, LF, a
    closing bracket. *)
Definition crlf_json : string := String "[" (String CR (String LF "]")).
Definition lf_json : string := String "[" (String LF "]").

(** A directory whose categories file is [crlf_json]. *)
Definition crlf_shelf : world :=
  mkWorld None None [] [(CATEGORIES_PATH, crlf_json)] [].

(** The module as a program: importing it runs [init_db]; when that
    raises the import fails and no request is served, otherwise the server
    answers the requests. *)
Definition main (cs : list call) (w : world)
  : outcome (list (outcome response)) * world :=
  match init_db w with
  | (Raise e, w') => (Raise e, w')
  | (Return _, w') =>
      match serve cs w' with
      | (rs, w'') => (Return rs, w'')
      end
  end.

(** The calls that only read the database. *)
Definition is_query (k : call) : bool :=
  match k with
  | ListExpenses _ _ => true
  | Summarize _ _ _ => true
  | _ => false
  end.

(** The calls that add a row whose amount is a number. *)
Definition adds_number (k : call) : bool :=
  match k with
  | AddExpense _ a _ _ _ => negb (PrimFloat.is_nan a)
  | _ => false
  end.

(** The row that [add_expense] stores under the id [i]. *)
Definition new_row (i : Z) (date : string) (amount : float) (category : string)
           (subcategory note : option string) : expense :=
  mkExpense i date (stored_real amount) category
            (default_arg "" subcategory) (default_arg "" note).

(** The ids a call adds to the table, read off its answer. *)
Definition id_added (r : outcome response) : list Z :=
  match returned_id r with
  | Some i => [i]
  | None => []
  end.

(** A world whose engine fails at the statement, after the connection. *)
Definition locked : world :=
  mkWorld (Some ledger_table) None
          [None; Some (OperationalError "database is locked")] [] [].

(** The text begins with a line feed. *)
Definition starts_with_lf (s : string) : bool :=
  match s with
  | String c _ => Ascii.eqb c LF
  | EmptyString => false
  end.

(** What reading with universal newlines does to a text, said byte by
    byte: a carriage return with the line feed after it is read as one
    line feed, any other carriage return is read as a line feed, and every
    other byte is read as it is. *)
Inductive newlines_read : string -> string -> Prop :=
| read_end : newlines_read EmptyString EmptyString
| read_crlf (s s' : string) :
    newlines_read s s' ->
    newlines_read (String CR (String LF s)) (String LF s')
| read_cr (s s' : string) :
    starts_with_lf s = false ->
    newlines_read s s' ->
    newlines_read (String CR s) (String LF s')
| read_byte (c : ascii) (s s' : string) :
    c <> CR ->
    newlines_read s s' ->
    newlines_read (String c s) (String c s').

(** A file with both kinds of line ending: a, CR, LF, b, CR, c. *)
Definition mixed_text : string :=
  String "a" (String CR (String LF (String "b" (String CR "c")))).

(** A directory whose categories file is [mixed_text]. *)
Definition mixed_shelf : world :=
  mkWorld None None [] [(CATEGORIES_PATH, mixed_text)] [].

(** The store after the program has started on an empty directory and two
    expenses of one category have been added, plus and minus infinity. *)
Definition polar : world :=
  Eval vm_compute in
    snd (serve
           [ AddExpense "2024-01-05" infinity "swing" None None;
             AddExpense "2024-01-06" neg_infinity "swing" None None ]
           (snd (init_db fresh))).

(** The relation of [polar]. *)
Definition polar_table : table :=
  mkTable expenses_schema
    [ mkExpense 1 "2024-01-05" infinity "swing" "" "";
      mkExpense 2 "2024-01-06" neg_infinity "swing" "" "" ]
    2.

(** * Properties *)

(** ** The order on text *)

Lemma text_le_refl (a : string) : text_le a a = true.
Proof.
  unfold text_le, String.leb.
  destruct (String.compare a a) eqn:E; trivial.
  pose proof (String.compare_antisym a a) as H.
  rewrite E in H. discriminate H.
Qed.

Lemma text_le_total (a b : string) : text_le a b = true \/ text_le b a = true.
Proof. apply String.leb_total. Qed.

Lemma ascii_compare_trans (x y z : ascii) (c : comparison) :
  Ascii.compare x y = c -> Ascii.compare y z = c -> Ascii.compare x z = c.
Proof.
  unfold Ascii.compare. intros Hxy Hyz. destruct c.
  - apply N.compare_eq_iff in Hxy, Hyz. rewrite Hxy, Hyz. apply N.compare_refl.
  - rewrite N.compare_lt_iff in *. lia.
  - rewrite N.compare_gt_iff in *. lia.
Qed.

Lemma string_compare_trans (c : comparison) :
  forall a b d : string,
    String.compare a b = c -> String.compare b d = c -> String.compare a d = c.
Proof.
  induction a as [|x a IH]; intros [|y b] [|z d]; simpl; try congruence.
  destruct (Ascii.compare x y) eqn:Hxy, (Ascii.compare y z) eqn:Hyz;
    intros H1 H2;
    try (apply Ascii.compare_eq_iff in Hxy; subst y);
    try (apply Ascii.compare_eq_iff in Hyz; subst z);
    try rewrite Hxy; try rewrite Hyz; try congruence.
  - pose proof (Ascii.compare_antisym x x) as Hx.
    destruct (Ascii.compare x x); try discriminate Hx. eauto.
  - rewrite (ascii_compare_trans x y z Lt Hxy Hyz). congruence.
  - rewrite (ascii_compare_trans x y z Gt Hxy Hyz). congruence.
Qed.

Lemma text_le_trans (a b d : string) :
  text_le a b = true -> text_le b d = true -> text_le a d = true.
Proof.
  unfold text_le, String.leb. intros Hab Hbd.
  destruct (String.compare a b) eqn:E1; try discriminate Hab;
    destruct (String.compare b d) eqn:E2; try discriminate Hbd.
  - apply String.compare_eq_iff in E1. subst b. now rewrite E2.
  - apply String.compare_eq_iff in E1. subst b. now rewrite E2.
  - apply String.compare_eq_iff in E2. subst d. now rewrite E1.
  - now rewrite (string_compare_trans Lt a b d E1 E2).
Qed.

Lemma text_lt_not_le (a b : string) :
  text_lt a b = true -> text_le b a = false.
Proof.
  unfold text_lt, text_le, String.ltb, String.leb.
  rewrite (String.compare_antisym a b).
  destruct (String.compare b a); simpl; congruence.
Qed.

(** An empty interval holds no text. *)
Lemma between_empty (x lo hi : string) :
  text_lt hi lo = true -> between x lo hi = false.
Proof.
  intros H. unfold between.
  destruct (text_le lo x) eqn:E1; trivial.
  destruct (text_le x hi) eqn:E2; trivial.
  pose proof (text_lt_not_le hi lo H) as Hn.
  pose proof (text_le_trans lo x hi E1 E2) as Hp. congruence.
Qed.

Lemma text_le_neq_lt (a b : string) :
  text_le a b = true -> a <> b -> text_lt a b = true.
Proof.
  unfold text_le, text_lt, String.leb, String.ltb. intros Hle Hne.
  destruct (String.compare a b) eqn:E; trivial.
  apply String.compare_eq_iff in E. contradiction.
Qed.

(** ** [ORDER BY] *)

Section OrderByFacts.
Context {A : Type} (leb : A -> A -> bool).

Lemma place_perm (x : A) (l : list A) : Permutation (place leb x l) (x :: l).
Proof.
  induction l as [|y l IH]; simpl.
  - apply Permutation_refl.
  - destruct (leb x y).
    + apply Permutation_refl.
    + eapply Permutation_trans; [apply perm_skip, IH | apply perm_swap].
Qed.

Lemma order_by_perm (l : list A) : Permutation (order_by leb l) l.
Proof.
  induction l as [|x l IH]; simpl.
  - apply perm_nil.
  - eapply Permutation_trans; [apply place_perm | apply perm_skip, IH].
Qed.

(** A list that is in order already is left as it is. *)
Lemma order_by_fixed (l : list A) :
  Sorted (le_of leb) l -> order_by leb l = l.
Proof.
  induction 1 as [|x l Hs IH Hd]; simpl; trivial.
  rewrite IH. destruct Hd as [|y l' Hxy]; simpl; trivial.
  unfold le_of in Hxy. now rewrite Hxy.
Qed.

Hypothesis leb_total : forall a b, leb a b = true \/ leb b a = true.
Hypothesis leb_trans :
  forall a b c, leb a b = true -> leb b c = true -> leb a c = true.

Lemma place_sorted (x : A) (l : list A) :
  StronglySorted (le_of leb) l -> StronglySorted (le_of leb) (place leb x l).
Proof.
  induction 1 as [|y l Hs IH Hall]; simpl.
  - repeat constructor.
  - destruct (leb x y) eqn:E.
    + constructor; [constructor; assumption|].
      constructor; [exact E|].
      eapply Forall_impl; [|exact Hall].
      intros z Hyz. exact (leb_trans x y z E Hyz).
    + constructor; [exact IH|].
      rewrite Forall_forall in *. intros z Hz.
      apply (Permutation_in _ (place_perm x l)) in Hz.
      destruct Hz as [<-|Hz]; [|now apply Hall].
      destruct (leb_total x y) as [H|H]; [congruence|exact H].
Qed.

Lemma order_by_sorted (l : list A) : StronglySorted (le_of leb) (order_by leb l).
Proof.
  induction l as [|x l IH]; simpl.
  - constructor.
  - now apply place_sorted.
Qed.
End OrderByFacts.

(** ** [GROUP BY category] with [SUM(amount)] *)

Lemma assoc_in_keys (c : string) (acc : list (string * float)) :
  In c (map fst acc) <-> assoc c acc <> None.
Proof.
  induction acc as [|[k s] acc IH]; simpl.
  - split; [tauto | congruence].
  - destruct (String.eqb_spec k c) as [->|Hne].
    + split; [congruence | auto].
    + rewrite <- IH. split; [intros [H|H]; [contradiction|exact H] | auto].
Qed.

Lemma assoc_in (c : string) (x : float) (acc : list (string * float)) :
  NoDup (map fst acc) -> (In (c, x) acc <-> assoc c acc = Some x).
Proof.
  induction acc as [|[k s] acc IH]; simpl; intros Hnd.
  - split; [tauto | congruence].
  - inversion Hnd as [|? ? Hk Hnd']; subst.
    destruct (String.eqb_spec k c) as [->|Hne].
    + split.
      * intros [H|H]; [congruence|].
        exfalso. apply Hk. change c with (fst (c, x)). now apply in_map.
      * intros H. left. congruence.
    + rewrite <- (IH Hnd'). split; [intros [H|H]; [congruence|exact H] | auto].
Qed.

Lemma accumulate_assoc (c c' : string) (x : float)
      (acc : list (string * float)) :
  assoc c' (accumulate c x acc) =
  if String.eqb c c'
  then Some (PrimFloat.add
               match assoc c acc with Some s => s | None => 0%float end x)
  else assoc c' acc.
Proof.
  induction acc as [|[k s] acc IH]; simpl.
  - destruct (String.eqb c c'); reflexivity.
  - destruct (String.eqb_spec k c) as [->|Hkc]; simpl.
    + destruct (String.eqb c c'); reflexivity.
    + rewrite IH. destruct (String.eqb_spec c c') as [<-|Hcc].
      * destruct (String.eqb_spec k c); [contradiction | reflexivity].
      * reflexivity.
Qed.

Lemma accumulate_keys (c : string) (x : float) (acc : list (string * float)) :
  map fst (accumulate c x acc) =
  if in_dec string_dec c (map fst acc) then map fst acc
  else (map fst acc ++ [c])%list.
Proof.
  induction acc as [|[k s] acc IH]; simpl; trivial.
  destruct (String.eqb_spec k c) as [->|Hkc]; simpl.
  - destruct (string_dec c c); [|contradiction].
    reflexivity.
  - rewrite IH. destruct (string_dec k c); [contradiction|].
    destruct (in_dec string_dec c (map fst acc)); reflexivity.
Qed.

Lemma accumulate_nodup (c : string) (x : float) (acc : list (string * float)) :
  NoDup (map fst acc) -> NoDup (map fst (accumulate c x acc)).
Proof.
  intros Hnd. rewrite accumulate_keys.
  destruct (in_dec string_dec c (map fst acc)) as [Hin|Hout]; trivial.
  apply NoDup_rev in Hnd. rewrite <- (rev_involutive (_ ++ _)%list).
  apply NoDup_rev. rewrite rev_app_distr. simpl.
  constructor; trivial. now rewrite <- in_rev.
Qed.

Lemma group_fold_nodup (rs : list expense) :
  forall acc, NoDup (map fst acc) ->
              NoDup (map fst (fold_left group_step rs acc)).
Proof.
  induction rs as [|r rs IH]; simpl; intros acc Hnd; trivial.
  apply IH. now apply accumulate_nodup.
Qed.

Lemma group_fold_assoc (c : string) (rs : list expense) :
  forall acc,
    assoc c (fold_left group_step rs acc) =
    match assoc c acc with
    | Some s => Some (fold_left PrimFloat.add (amounts_of c rs) s)
    | None =>
        match amounts_of c rs with
        | [] => None
        | _ :: _ => Some (sum (amounts_of c rs))
        end
    end.
Proof.
  induction rs as [|r rs IH]; simpl; intros acc.
  - destruct (assoc c acc); reflexivity.
  - rewrite IH. unfold group_step at 1. rewrite accumulate_assoc.
    unfold amounts_of. simpl.
    destruct (String.eqb_spec (row_category r) c) as [Heq|Hne]; simpl.
    + rewrite Heq. destruct (assoc c acc); reflexivity.
    + reflexivity.
Qed.

(** What [GROUP BY] with [SUM] computes: one total per category that
    occurs, the sum of that category's amounts in scan order. *)
Lemma group_sum_assoc (c : string) (rs : list expense) :
  assoc c (group_sum rs) =
  match amounts_of c rs with
  | [] => None
  | _ :: _ => Some (sum (amounts_of c rs))
  end.
Proof. apply (group_fold_assoc c rs []). Qed.

Lemma group_sum_nodup (rs : list expense) : NoDup (map fst (group_sum rs)).
Proof. apply (group_fold_nodup rs []). constructor. Qed.

Lemma amounts_of_nil (c : string) (rs : list expense) :
  amounts_of c rs = [] <-> (forall r, In r rs -> row_category r <> c).
Proof.
  unfold amounts_of. induction rs as [|r rs IH]; simpl.
  - split; [intros _ r [] | trivial].
  - destruct (String.eqb_spec (row_category r) c) as [Heq|Hne]; simpl.
    + split; [discriminate|]. intros H. exfalso. apply (H r); auto.
    + rewrite IH. split.
      * intros H r' [<-|Hin]; auto.
      * intros H r' Hin. apply H. auto.
Qed.

(** ** Running a tool call *)

Ltac run_call :=
  unfold local_connection, with_connection, connect, execute, commit,
    rollback, bind, ret, raise, engine_call, run_statement, view, write,
    write_dml, logged, set_faults, set_txn, set_disk; simpl.

Ltac split_faults w :=
  let d := fresh "d" in
  let t := fresh "t" in
  let fs := fresh "fs" in
  let fl := fresh "fl" in
  let lg := fresh "lg" in
  destruct w as [d t fs fl lg];
  destruct fs as [|[?|] [|[?|] [|[?|] fs]]]; destruct d as [?|].

Lemma where_date (d1 d2 : string) (rs : list expense) :
  filter (fun r => between (row_date r) d1 d2 && true) rs
  = filter (in_range d1 d2) rs.
Proof.
  apply filter_ext. intros r. unfold between, in_range, text_le.
  apply andb_true_r.
Qed.

Lemma list_expenses_result (d1 d2 : string) (w : world) :
  fst (list_expenses d1 d2 w) =
  match first_fault 2 (faults w) with
  | Some e => Raise e
  | None =>
      match disk w with
      | None => Raise no_such_table
      | Some t =>
          Return (map expense_record
                      (order_by id_leb (filter (in_range d1 d2) (tbl_rows t))))
      end
  end.
Proof.
  unfold list_expenses. split_faults w; run_call; trivial.
  all: rewrite where_date, map_map; reflexivity.
Qed.

Lemma list_expenses_world (d1 d2 : string) (w : world) :
  disk (snd (list_expenses d1 d2 w)) = disk w
  /\ txn (snd (list_expenses d1 d2 w)) = None
  /\ files (snd (list_expenses d1 d2 w)) = files w.
Proof.
  unfold list_expenses. split_faults w; run_call; auto.
Qed.

Lemma where_selected (d1 d2 : string) (category : option string)
      (rs : list expense) :
  (if truthy category
   then filter (fun r => between (row_date r) d1 d2
                         && (String.eqb (row_category r)
                                        (default_arg "" category) && true)) rs
   else filter (fun r => between (row_date r) d1 d2 && true) rs)
  = filter (selected d1 d2 category) rs.
Proof.
  unfold selected.
  destruct (truthy category); apply filter_ext; intros r;
    unfold between, in_range, text_le; now rewrite !andb_true_r.
Qed.

Lemma summarize_result (d1 d2 : string) (category : option string)
      (w : world) :
  fst (summarize d1 d2 category w) =
  match first_fault 2 (faults w) with
  | Some e => Raise e
  | None =>
      match disk w with
      | None => Raise no_such_table
      | Some t =>
          Return (map total_record
                      (order_by category_leb
                         (group_sum
                            (filter (selected d1 d2 category) (tbl_rows t)))))
      end
  end.
Proof.
  unfold summarize.
  destruct (truthy category) eqn:E; split_faults w; run_call; trivial.
  all: rewrite <- where_selected, E, map_map; reflexivity.
Qed.

Lemma summarize_world (d1 d2 : string) (category : option string)
      (w : world) :
  disk (snd (summarize d1 d2 category w)) = disk w
  /\ txn (snd (summarize d1 d2 category w)) = None
  /\ files (snd (summarize d1 d2 category w)) = files w.
Proof.
  unfold summarize.
  destruct (truthy category); split_faults w; run_call; auto.
Qed.

Lemma add_expense_run (d : string) (a : float) (c : string)
      (sc n : option string) (w : world) :
  (fst (add_expense d a c sc n w),
   disk (snd (add_expense d a c sc n w))) =
  match first_fault 2 (faults w) with
  | Some e => (Raise e, disk w)
  | None =>
      match disk w with
      | None => (Raise no_such_table, disk w)
      | Some t =>
          if MAX_ROWID <? next_rowid t then (Raise database_full, disk w)
          else if PrimFloat.is_nan a then (Raise not_null_amount, disk w)
          else
            match first_fault 3 (faults w) with
            | Some e => (Raise e, disk w)
            | None =>
                (Return (ok_record (next_rowid t)),
                 Some (appended t d (stored_real a) c (default_arg "" sc)
                                (default_arg "" n)))
            end
      end
  end.
Proof.
  unfold add_expense, appended.
  split_faults w; run_call; trivial.
  all: destruct (MAX_ROWID <? next_rowid _); simpl; trivial.
  all: destruct (PrimFloat.is_nan a); simpl; reflexivity.
Qed.

Lemma init_db_run (w : world) :
  (fst (init_db w), disk (snd (init_db w))) =
  match first_fault 2 (faults w) with
  | Some e => (Raise e, disk w)
  | None =>
      (Return tt,
       match disk w with
       | Some t => Some t
       | None => Some (mkTable expenses_schema [] 0)
       end)
  end.
Proof.
  unfold init_db. split_faults w; run_call; reflexivity.
Qed.

(** ** Worlds used as examples *)

Example ledger_disk : disk ledger = Some ledger_table.
Proof. reflexivity. Qed.

Example scenario_answers :
  fst (serve scenario (snd (init_db fresh))) =
  [ Return (RDict (ok_record 1));
    Return (RDict (ok_record 2));
    Return (RList (map expense_record (tbl_rows ledger_table)));
    Return (RList [ total_record ("food", 12.5%float);
                    total_record ("transport", 40%float) ]);
    Return (RList [ total_record ("food", 12.5%float) ]);
    Return (RList []);
    Return (RList [ total_record ("food", 12.5%float);
                    total_record ("transport", 40%float) ]) ].
Proof. vm_compute. reflexivity. Qed.

(** ** Range queries *)

Lemma StronglySorted_weaken {A : Type} (R R' : A -> A -> Prop) (l : list A) :
  (forall a b, R a b -> R' a b) -> StronglySorted R l -> StronglySorted R' l.
Proof.
  intros Himp. induction 1 as [|x l Hs IH Hall]; constructor; trivial.
  eapply Forall_impl; [|exact Hall]. intros b. apply Himp.
Qed.

Lemma id_leb_total (a b : expense) : id_leb a b = true \/ id_leb b a = true.
Proof. unfold id_leb. rewrite !Z.leb_le. lia. Qed.

Lemma id_leb_trans (a b c : expense) :
  id_leb a b = true -> id_leb b c = true -> id_leb a c = true.
Proof. unfold id_leb. rewrite !Z.leb_le. lia. Qed.

Lemma filter_none {A : Type} (p : A -> bool) (l : list A) :
  (forall x, In x l -> p x = false) -> filter p l = [].
Proof.
  induction l as [|x l IH]; simpl; intros H; trivial.
  rewrite (H x (or_introl eq_refl)). apply IH. intros y Hy. apply H. auto.
Qed.

(** C1.  On a store that holds the relation, with the engine serving the
    call, [list_expenses d1 d2] answers with the records of exactly the
    rows whose date lies between [d1] and [d2] in the order of text, both
    ends included: the answer is a rearrangement of those rows, in
    ascending order of id, and each record has the six fields id, date,
    amount, category, subcategory and note. *)
Theorem list_expenses_between (w : world) (t : table) (d1 d2 : string) :
  disk w = Some t ->
  quiet 2 w ->
  exists out : list expense,
    fst (list_expenses d1 d2 w) = Return (map expense_record out)
    /\ Permutation out (filter (in_range d1 d2) (tbl_rows t))
    /\ StronglySorted (fun a b => row_id a <= row_id b) out
    /\ Forall (fun d => keys d = expense_fields) (map expense_record out).
Proof.
  intros Hdisk Hquiet.
  exists (order_by id_leb (filter (in_range d1 d2) (tbl_rows t))).
  rewrite list_expenses_result, Hquiet, Hdisk.
  split; [reflexivity|]. split; [apply order_by_perm|]. split.
  - apply StronglySorted_weaken with (R := le_of id_leb).
    + intros a b. unfold le_of, id_leb. apply Z.leb_le.
    + apply order_by_sorted; [apply id_leb_total | apply id_leb_trans].
  - apply Forall_forall. intros d Hd. apply in_map_iff in Hd.
    destruct Hd as [r [<- _]]. reflexivity.
Qed.

Lemma list_expenses_between_witness :
  exists out : list expense,
    fst (list_expenses "2024-01-06" "2024-01-31" ledger)
    = Return (map expense_record out)
    /\ Permutation out
         (filter (in_range "2024-01-06" "2024-01-31") (tbl_rows ledger_table))
    /\ StronglySorted (fun a b => row_id a <= row_id b) out
    /\ Forall (fun d => keys d = expense_fields) (map expense_record out).
Proof.
  apply (list_expenses_between ledger ledger_table); reflexivity.
Defined.

(** C5.  On a store that holds the relation, with the engine serving the
    call, [list_expenses] over bounds that no row lies between, or with the
    end before the start, answers with the empty list; it raises
    nothing. *)
Theorem list_expenses_empty_range (w : world) (t : table) (d1 d2 : string) :
  disk w = Some t ->
  quiet 2 w ->
  (forall r, In r (tbl_rows t) -> in_range d1 d2 r = false)
  \/ text_lt d2 d1 = true ->
  fst (list_expenses d1 d2 w) = Return [].
Proof.
  intros Hdisk Hquiet Hempty.
  rewrite list_expenses_result, Hquiet, Hdisk.
  rewrite filter_none; [reflexivity|].
  destruct Hempty as [Hnone|Hlt]; [exact Hnone|].
  intros r _. apply (between_empty (row_date r) d1 d2 Hlt).
Qed.

Lemma list_expenses_empty_range_witness :
  fst (list_expenses "2024-02-01" "2024-01-01" ledger) = Return [].
Proof.
  apply (list_expenses_empty_range ledger ledger_table);
    [reflexivity | reflexivity | right; reflexivity].
Defined.

(** ** Totals per category *)

Lemma amounts_of_some (c : string) (rs : list expense) :
  amounts_of c rs <> [] <-> exists r, In r rs /\ row_category r = c.
Proof.
  unfold amounts_of. induction rs as [|r rs IH]; simpl.
  - split; [congruence | intros [r [[] _]]].
  - destruct (String.eqb_spec (row_category r) c) as [Heq|Hne]; simpl.
    + split; [|discriminate]. intros _. exists r. auto.
    + rewrite IH. split.
      * intros [r' [Hin Hc]]. exists r'. auto.
      * intros [r' [[<-|Hin] Hc]]; [contradiction|]. exists r'. auto.
Qed.

Lemma category_leb_total (a b : string * float) :
  category_leb a b = true \/ category_leb b a = true.
Proof. apply text_le_total. Qed.

Lemma category_leb_trans (a b c : string * float) :
  category_leb a b = true -> category_leb b c = true ->
  category_leb a c = true.
Proof. apply text_le_trans. Qed.

(** Sorted keys without repetition ascend strictly. *)
Lemma sorted_keys_strict (l : list (string * float)) :
  StronglySorted (le_of category_leb) l ->
  NoDup (map fst l) ->
  StronglySorted (fun a b => text_lt a b = true) (map fst l).
Proof.
  induction 1 as [|g l Hs IH Hall]; simpl; intros Hnd; [constructor|].
  inversion Hnd as [|? ? Hout Hnd']; subst.
  constructor; [now apply IH|].
  apply Forall_forall. intros k Hk.
  apply in_map_iff in Hk. destruct Hk as [g' [<- Hg']].
  apply text_le_neq_lt.
  - rewrite Forall_forall in Hall. exact (Hall g' Hg').
  - intros Heq. apply Hout. rewrite Heq. now apply in_map.
Qed.

Lemma selected_all (d1 d2 : string) (rs : list expense) :
  filter (selected d1 d2 None) rs = filter (in_range d1 d2) rs.
Proof.
  apply filter_ext. intros r. unfold selected. simpl. apply andb_true_r.
Qed.

(** C2, as the code has it.  On a store that holds the relation, with the
    engine serving the call, [summarize d1 d2] without a category answers
    with one record (category, total_amount) for each category that has a
    row in the range, and for no other category; the total is the
    floating-point sum of the amounts of that category's rows in the
    range, added in the order of the rows from zero, and shows as [None]
    when that sum is not a number; the categories ascend strictly in the
    order of text, so none occurs twice. *)
Theorem summarize_totals (w : world) (t : table) (d1 d2 : string) :
  disk w = Some t ->
  quiet 2 w ->
  exists out : list (string * float),
    fst (summarize d1 d2 None w) = Return (map total_record out)
    /\ (forall c,
           In c (map fst out) <->
           exists r, In r (tbl_rows t)
                     /\ in_range d1 d2 r = true /\ row_category r = c)
    /\ (forall c x,
           In (c, x) out ->
           x = sum (amounts_of c (filter (in_range d1 d2) (tbl_rows t))))
    /\ StronglySorted (fun a b => text_lt a b = true) (map fst out).
Proof.
  intros Hdisk Hquiet.
  set (rs := filter (in_range d1 d2) (tbl_rows t)).
  exists (order_by category_leb (group_sum rs)).
  pose proof (order_by_perm category_leb (group_sum rs)) as Hperm.
  assert (Hnd : NoDup (map fst (order_by category_leb (group_sum rs)))).
  { eapply Permutation_NoDup; [|apply group_sum_nodup].
    apply Permutation_map, Permutation_sym, Hperm. }
  split; [|split; [|split]].
  - rewrite summarize_result, Hquiet, Hdisk, selected_all. reflexivity.
  - intros c. split.
    + intros Hin.
      apply (Permutation_in _ (Permutation_map fst Hperm)) in Hin.
      apply assoc_in_keys in Hin. rewrite group_sum_assoc in Hin.
      destruct (amounts_of c rs) eqn:E; [congruence|].
      assert (Hne : amounts_of c rs <> []) by (rewrite E; discriminate).
      apply amounts_of_some in Hne. destruct Hne as [r [Hr Hc]].
      apply filter_In in Hr. exists r. tauto.
    + intros [r [Hr [Hrange Hc]]].
      apply (Permutation_in _ (Permutation_sym (Permutation_map fst Hperm))).
      apply assoc_in_keys. rewrite group_sum_assoc.
      assert (Hne : amounts_of c rs <> []).
      { apply amounts_of_some. exists r. split; [|exact Hc].
        apply filter_In. auto. }
      destruct (amounts_of c rs); [contradiction | discriminate].
  - intros c x Hin.
    apply (Permutation_in _ Hperm) in Hin.
    apply (assoc_in c x _ (group_sum_nodup rs)) in Hin.
    rewrite group_sum_assoc in Hin.
    destruct (amounts_of c rs); [discriminate|]. congruence.
  - apply sorted_keys_strict; [|exact Hnd].
    apply order_by_sorted; [apply category_leb_total|apply category_leb_trans].
Qed.

Lemma summarize_totals_witness :
  exists out : list (string * float),
    fst (summarize "2024-01-01" "2024-01-31" None ledger)
    = Return (map total_record out)
    /\ (forall c,
           In c (map fst out) <->
           exists r, In r (tbl_rows ledger_table)
                     /\ in_range "2024-01-01" "2024-01-31" r = true
                     /\ row_category r = c)
    /\ (forall c x,
           In (c, x) out ->
           x = sum (amounts_of c (filter (in_range "2024-01-01" "2024-01-31")
                                         (tbl_rows ledger_table))))
    /\ StronglySorted (fun a b => text_lt a b = true) (map fst out).
Proof.
  apply (summarize_totals ledger ledger_table); reflexivity.
Defined.

Example polar_disk : disk polar = Some polar_table.
Proof. reflexivity. Qed.

(** C2 as stated fails where the amounts have no sum: on [polar], whose
    two rows of the category swing are plus and minus infinity, the total
    that [summarize] answers with is [None], and no number. *)
Lemma summarize_not_a_number_counterexample :
  fst (summarize "2024-01-01" "2024-01-31" None polar)
  = Return [ [ ("category", VText "swing"); ("total_amount", VNull) ] ]
  /\ ~ (exists x : float,
          fst (summarize "2024-01-01" "2024-01-31" None polar)
          = Return [ [ ("category", VText "swing");
                       ("total_amount", VReal x) ] ]).
Proof.
  split; [reflexivity|].
  intros [x H]. vm_compute in H. discriminate H.
Qed.

(** Two finite amounts whose sum is beyond the largest [float]: the total
    is infinity. *)
Example summarize_overflows :
  fst (summarize "2024-01-01" "2024-01-31" None
         (snd (serve
                 [ AddExpense "2024-01-05" 0x1p+1023%float "rent" None None;
                   AddExpense "2024-01-06" 0x1p+1023%float "rent" None None ]
                 (snd (init_db fresh)))))
  = Return [ [ ("category", VText "rent");
               ("total_amount", VReal infinity) ] ].
Proof. vm_compute. reflexivity. Qed.

(** ** The category filter *)

Lemma filter_and {A : Type} (p q : A -> bool) (l : list A) :
  filter (fun x => p x && q x) l = filter q (filter p l).
Proof.
  induction l as [|x l IH]; simpl; trivial.
  destruct (p x); simpl; [destruct (q x)|]; now rewrite IH.
Qed.

Lemma group_fold_single (c : string) (rs : list expense) :
  (forall r, In r rs -> row_category r = c) ->
  forall s,
    fold_left group_step rs [(c, s)]
    = [(c, fold_left PrimFloat.add (map row_amount rs) s)].
Proof.
  induction rs as [|r rs IH]; simpl; intros Hall s; trivial.
  unfold group_step at 2. simpl.
  rewrite (Hall r (or_introl eq_refl)), String.eqb_refl.
  apply IH. intros r' Hr'. apply Hall. auto.
Qed.

Lemma group_sum_single (c : string) (rs : list expense) :
  (forall r, In r rs -> row_category r = c) ->
  group_sum rs =
  match rs with
  | [] => []
  | _ :: _ => [(c, sum (map row_amount rs))]
  end.
Proof.
  destruct rs as [|r rs]; intros Hall; trivial.
  unfold group_sum. simpl. unfold group_step at 2. simpl.
  rewrite (Hall r (or_introl eq_refl)).
  apply (group_fold_single c rs). intros r' Hr'. apply Hall. simpl. auto.
Qed.

Lemma selected_one (d1 d2 c : string) (rs : list expense) :
  c <> "" ->
  filter (selected d1 d2 (Some c)) rs
  = filter (fun r => String.eqb (row_category r) c)
           (filter (in_range d1 d2) rs).
Proof.
  intros Hc. rewrite <- filter_and. apply filter_ext. intros r.
  unfold selected. simpl.
  destruct (String.eqb_spec c "") as [Heq|_]; [contradiction|reflexivity].
Qed.

(** C8, as the code has it.  On a store that holds the relation, with the
    engine serving the call, [summarize d1 d2 c] with a category [c] other
    than the empty string answers with at most one record, the one of [c]
    with the floating-point sum of the amounts of its rows in the range
    ([None] when that sum is not a number); when no row in the range has
    category [c] the answer is the empty list. *)
Theorem summarize_one_category (w : world) (t : table) (d1 d2 c : string) :
  c <> "" ->
  disk w = Some t ->
  quiet 2 w ->
  fst (summarize d1 d2 (Some c) w) =
  Return
    match amounts_of c (filter (in_range d1 d2) (tbl_rows t)) with
    | [] => []
    | _ :: _ =>
        [ total_record
            (c, sum (amounts_of c (filter (in_range d1 d2) (tbl_rows t)))) ]
    end
  /\ ((forall r, In r (tbl_rows t) -> in_range d1 d2 r = true ->
                 row_category r <> c) ->
      fst (summarize d1 d2 (Some c) w) = Return []).
Proof.
  intros Hc Hdisk Hquiet.
  assert (Hres :
    fst (summarize d1 d2 (Some c) w) =
    Return
      match amounts_of c (filter (in_range d1 d2) (tbl_rows t)) with
      | [] => []
      | _ :: _ =>
          [ total_record
              (c, sum (amounts_of c (filter (in_range d1 d2) (tbl_rows t)))) ]
      end).
  { rewrite summarize_result, Hquiet, Hdisk, (selected_one d1 d2 c _ Hc).
    unfold amounts_of.
    set (rs := filter _ (filter (in_range d1 d2) (tbl_rows t))).
    rewrite (group_sum_single c rs).
    - destruct rs; reflexivity.
    - intros r Hr. apply filter_In in Hr. now apply String.eqb_eq. }
  split; [exact Hres|].
  intros Hnone. rewrite Hres.
  assert (E : amounts_of c (filter (in_range d1 d2) (tbl_rows t)) = []).
  { apply amounts_of_nil. intros r Hr. apply filter_In in Hr.
    apply Hnone; tauto. }
  now rewrite E.
Qed.

Lemma summarize_one_category_witness :
  fst (summarize "2024-01-01" "2024-01-31" (Some "food") ledger)
  = Return [ total_record ("food", 12.5%float) ].
Proof.
  apply (summarize_one_category ledger ledger_table
           "2024-01-01" "2024-01-31" "food");
    [discriminate | reflexivity | reflexivity].
Defined.

(** C8 as stated fails for the empty string: supplied as the category it
    filters nothing.  On the ledger, which has no row of category [""], the
    answer has two records, of the categories food and transport. *)
Lemma summarize_empty_category_counterexample :
  (forall r, In r (tbl_rows ledger_table) -> row_category r <> "")
  /\ exists out : list dict,
       fst (summarize "2024-01-01" "2024-01-31" (Some "") ledger) = Return out
       /\ List.length out = 2%nat
       /\ out <> []
       /\ ~ (forall d, In d out -> dict_get "category" d = Some (VText "")).
Proof.
  split.
  - intros r [<-|[<-|[]]]; discriminate.
  - exists [ total_record ("food", 12.5%float);
             total_record ("transport", 40%float) ].
    split; [reflexivity|]. split; [reflexivity|]. split; [discriminate|].
    intros H. specialize (H _ (or_introl eq_refl)). discriminate H.
Qed.

(** The totals of a list of rows: one for each category that occurs,
    the sum of its amounts, the categories ascending. *)
Lemma grouped_totals (rs : list expense) :
  (forall c,
      In c (map fst (order_by category_leb (group_sum rs))) <->
      exists r, In r rs /\ row_category r = c)
  /\ (forall c x,
         In (c, x) (order_by category_leb (group_sum rs)) ->
         x = sum (amounts_of c rs))
  /\ StronglySorted (fun a b => text_lt a b = true)
                    (map fst (order_by category_leb (group_sum rs))).
Proof.
  pose proof (order_by_perm category_leb (group_sum rs)) as Hperm.
  assert (Hnd : NoDup (map fst (order_by category_leb (group_sum rs)))).
  { eapply Permutation_NoDup; [|apply group_sum_nodup].
    apply Permutation_map, Permutation_sym, Hperm. }
  split; [|split].
  - intros c. rewrite <- amounts_of_some. split.
    + intros Hin.
      apply (Permutation_in _ (Permutation_map fst Hperm)) in Hin.
      apply assoc_in_keys in Hin. rewrite group_sum_assoc in Hin.
      destruct (amounts_of c rs); [congruence | discriminate].
    + intros Hne.
      apply (Permutation_in _ (Permutation_sym (Permutation_map fst Hperm))).
      apply assoc_in_keys. rewrite group_sum_assoc.
      destruct (amounts_of c rs); [contradiction | discriminate].
  - intros c x Hin.
    apply (Permutation_in _ Hperm) in Hin.
    apply (assoc_in c x _ (group_sum_nodup rs)) in Hin.
    rewrite group_sum_assoc in Hin.
    destruct (amounts_of c rs); [discriminate | congruence].
  - apply sorted_keys_strict; [|exact Hnd].
    apply order_by_sorted; [apply category_leb_total|apply category_leb_trans].
Qed.

(** C10.  [summarize] with the empty string as category is [summarize]
    without a category: the same query is run, so the same answer comes
    back and the world is left the same, in every world.  On a store that
    holds the relation, with the engine serving the call, that answer is
    the totals of all categories: one record for each category that has a
    row in the range, with the floating-point sum of its amounts, the
    categories ascending; it is not the empty list when a row lies in the
    range, whatever the categories of the rows. *)
Theorem summarize_empty_string (d1 d2 : string) (w : world) (t : table) :
  summarize d1 d2 (Some "") w = summarize d1 d2 None w
  /\ (disk w = Some t ->
      quiet 2 w ->
      exists out : list (string * float),
        fst (summarize d1 d2 (Some "") w) = Return (map total_record out)
        /\ (forall c,
               In c (map fst out) <->
               exists r, In r (tbl_rows t)
                         /\ in_range d1 d2 r = true /\ row_category r = c)
        /\ (forall c x,
               In (c, x) out ->
               x = sum (amounts_of c (filter (in_range d1 d2) (tbl_rows t))))
        /\ StronglySorted (fun a b => text_lt a b = true) (map fst out)
        /\ ((exists r, In r (tbl_rows t) /\ in_range d1 d2 r = true) ->
            out <> [])).
Proof.
  split; [reflexivity|]. intros Hdisk Hquiet.
  set (rs := filter (in_range d1 d2) (tbl_rows t)).
  destruct (grouped_totals rs) as [Hcats [Hsums Hsorted]].
  exists (order_by category_leb (group_sum rs)).
  assert (Hin : forall c,
             In c (map fst (order_by category_leb (group_sum rs))) <->
             exists r, In r (tbl_rows t)
                       /\ in_range d1 d2 r = true /\ row_category r = c).
  { intros c. rewrite Hcats. split.
    - intros [r [Hr Hc]]. apply filter_In in Hr. exists r. tauto.
    - intros [r [Hr [Hrange Hc]]]. exists r. split; [|exact Hc].
      apply filter_In. auto. }
  split; [|split; [exact Hin|split; [exact Hsums|split; [exact Hsorted|]]]].
  - change (summarize d1 d2 (Some "") w) with (summarize d1 d2 None w).
    rewrite summarize_result, Hquiet, Hdisk, selected_all. reflexivity.
  - intros [r [Hr Hrange]] Hnil.
    assert (Hc : In (row_category r)
                    (map fst (order_by category_leb (group_sum rs)))).
    { apply Hin. exists r. auto. }
    rewrite Hnil in Hc. destruct Hc.
Qed.

Lemma summarize_empty_string_witness :
  summarize "2024-01-01" "2024-01-31" (Some "") ledger
  = summarize "2024-01-01" "2024-01-31" None ledger
  /\ exists out : list (string * float),
       fst (summarize "2024-01-01" "2024-01-31" (Some "") ledger)
       = Return (map total_record out)
       /\ (forall c,
              In c (map fst out) <->
              exists r, In r (tbl_rows ledger_table)
                        /\ in_range "2024-01-01" "2024-01-31" r = true
                        /\ row_category r = c)
       /\ (forall c x,
              In (c, x) out ->
              x = sum (amounts_of c
                         (filter (in_range "2024-01-01" "2024-01-31")
                                 (tbl_rows ledger_table))))
       /\ StronglySorted (fun a b => text_lt a b = true) (map fst out)
       /\ ((exists r, In r (tbl_rows ledger_table)
                      /\ in_range "2024-01-01" "2024-01-31" r = true) ->
           out <> []).
Proof.
  destruct (summarize_empty_string "2024-01-01" "2024-01-31"
              ledger ledger_table) as [Heq Hall].
  split; [exact Heq|]. apply Hall; reflexivity.
Defined.

(** On the ledger the answer for the empty string has the two records of
    food and transport. *)
Example summarize_empty_string_ledger :
  fst (summarize "2024-01-01" "2024-01-31" (Some "") ledger)
  = Return [ total_record ("food", 12.5%float);
             total_record ("transport", 40%float) ].
Proof. reflexivity. Qed.

(** ** Initialisation *)

(** C6.  [init_db] on a store that holds the relation already leaves the
    relation as it is, with its schema, its rows and its rowid counter,
    whatever the engine does; and with the engine serving the call it
    returns without an error. *)
Theorem init_db_idempotent (w : world) (t : table) :
  disk w = Some t ->
  disk (snd (init_db w)) = Some t
  /\ (quiet 2 w -> fst (init_db w) = Return tt).
Proof.
  intros Hdisk. pose proof (init_db_run w) as Hrun.
  unfold quiet. rewrite Hdisk in Hrun.
  destruct (first_fault 2 (faults w)); injection Hrun as Hr Hd;
    (split; [exact Hd|]); intros Hq; [discriminate Hq | exact Hr].
Qed.

Lemma init_db_idempotent_witness :
  disk (snd (init_db ledger)) = Some ledger_table
  /\ fst (init_db ledger) = Return tt.
Proof.
  destruct (init_db_idempotent ledger ledger_table eq_refl) as [Hd Hr].
  split; [exact Hd | apply Hr; reflexivity].
Defined.

(** The first call creates the relation, empty and with the schema of the
    source, when there is none. *)
Lemma init_db_creates (w : world) :
  disk w = None -> quiet 2 w ->
  fst (init_db w) = Return tt
  /\ disk (snd (init_db w)) = Some (mkTable expenses_schema [] 0).
Proof.
  intros Hdisk Hq. pose proof (init_db_run w) as Hrun.
  unfold quiet in Hq. rewrite Hq, Hdisk in Hrun.
  injection Hrun as Hr Hd. auto.
Qed.

(** ** What a call does to the stored rows *)

Lemma lift_fst {A B : Type} (f : A -> B) (m : M A) (w : world) :
  fst (lift f m w) =
  match fst (m w) with
  | Return a => Return (f a)
  | Raise e => Raise e
  end.
Proof. unfold lift, bind, ret. destruct (m w) as [[a|e] w']; reflexivity. Qed.

Lemma lift_snd {A B : Type} (f : A -> B) (m : M A) (w : world) :
  snd (lift f m w) = snd (m w).
Proof. unfold lift, bind, ret. destruct (m w) as [[a|e] w']; reflexivity. Qed.

Lemma categories_world (w : world) :
  disk (snd (categories w)) = disk w.
Proof.
  unfold categories, read_text. simpl.
  destruct (read_file CATEGORIES_PATH (files w)) as [b|]; [|reflexivity].
  destruct (utf8_valid b); reflexivity.
Qed.

(** [add_expense] either leaves the file as it is or appends one row. *)
Lemma add_expense_disk (d : string) (a : float) (c : string)
      (sc n : option string) (w : world) :
  disk (snd (add_expense d a c sc n w)) = disk w
  \/ exists t,
       disk w = Some t
       /\ fst (add_expense d a c sc n w) = Return (ok_record (next_rowid t))
       /\ disk (snd (add_expense d a c sc n w))
          = Some (appended t d (stored_real a) c (default_arg "" sc)
                           (default_arg "" n)).
Proof.
  pose proof (add_expense_run d a c sc n w) as Hrun.
  destruct (first_fault 2 (faults w));
    [injection Hrun as _ Hd; now left|].
  destruct (disk w) as [t|] eqn:Hdisk;
    [|injection Hrun as _ Hd; now left].
  destruct (MAX_ROWID <? next_rowid t);
    [injection Hrun as _ Hd; now left|].
  destruct (PrimFloat.is_nan a);
    [injection Hrun as _ Hd; now left|].
  destruct (first_fault 3 (faults w));
    [injection Hrun as _ Hd; now left|].
  injection Hrun as Hr Hd. right. exists t. auto.
Qed.

Lemma handle_rows (k : call) (w : world) :
  exists new, rows_of (disk (snd (handle k w))) = (rows_of (disk w) ++ new)%list.
Proof.
  destruct k as [d a c sc n|d1 d2|d1 d2 c|]; simpl; rewrite lift_snd.
  - destruct (add_expense_disk d a c sc n w) as [->|[t [Hdisk [_ ->]]]].
    + exists []. now rewrite app_nil_r.
    + rewrite Hdisk. simpl. eauto.
  - destruct (list_expenses_world d1 d2 w) as [-> _].
    exists []. now rewrite app_nil_r.
  - destruct (summarize_world d1 d2 c w) as [-> _].
    exists []. now rewrite app_nil_r.
  - rewrite categories_world. exists []. now rewrite app_nil_r.
Qed.

(** C7.  [list_expenses] and [summarize] leave the database file exactly
    as it was, for every world and all arguments; and no operation of the
    program, a tool call, the resource or [init_db], changes or removes a
    stored row: the rows present before are the first rows after, as they
    were. *)
Theorem queries_read_only (w : world) (d1 d2 : string) (c : option string) :
  disk (snd (list_expenses d1 d2 w)) = disk w
  /\ disk (snd (summarize d1 d2 c w)) = disk w
  /\ (forall k : call,
         exists new,
           rows_of (disk (snd (handle k w))) = (rows_of (disk w) ++ new)%list)
  /\ rows_of (disk (snd (init_db w))) = rows_of (disk w).
Proof.
  split; [apply list_expenses_world|].
  split; [apply summarize_world|].
  split; [intros k; apply handle_rows|].
  pose proof (init_db_run w) as Hrun.
  destruct (first_fault 2 (faults w)); injection Hrun as _ ->; trivial.
  destruct (disk w); reflexivity.
Qed.

(** ** Adding an expense *)

Lemma first_fault_more (fs : list (option Error)) (e : Error) :
  first_fault 2 fs = Some e -> first_fault 3 fs = Some e.
Proof.
  destruct fs as [|[?|] [|[?|] fs]]; simpl; congruence.
Qed.

(** The engine calls of one [add_expense]: a connection, then at most one
    [INSERT], then at most one commit. *)
Lemma add_expense_log (d : string) (a : float) (c : string)
      (sc n : option string) (w : world) :
  exists evs,
    log (snd (add_expense d a c sc n w)) = (log w ++ evs)%list
    /\ (evs = [EvConnect DB_PATH]
        \/ evs = [EvConnect DB_PATH;
                  EvExecute (InsertExpense d a c (default_arg "" sc)
                                           (default_arg "" n))]
        \/ evs = [EvConnect DB_PATH;
                  EvExecute (InsertExpense d a c (default_arg "" sc)
                                           (default_arg "" n));
                  EvCommit]).
Proof.
  unfold add_expense. split_faults w; run_call;
    try destruct (MAX_ROWID <? next_rowid _); simpl;
    try destruct (PrimFloat.is_nan a); simpl;
    rewrite <- ?app_assoc; simpl; eexists; (split; [reflexivity|]); auto.
Qed.

(** C4.  Every call of [add_expense] ends in one of two ways.  Either all
    three engine calls were served and the amount is a number: then the
    answer is the record with status ok and the id of the row that was
    appended, and that row is in the file, with the amount as the engine
    stores it.  Or it raises: then the error is the one the engine gave at
    the first call that failed, or the statement's own (no table, rowids
    used up, or an amount that is not a number, which the column refuses),
    and the file is as it was.  In both cases the [INSERT] was issued at
    most once. *)
Theorem add_expense_outcome (d : string) (a : float) (c : string)
        (sc n : option string) (w : world) :
  ((exists t,
       disk w = Some t
       /\ quiet 3 w
       /\ PrimFloat.is_nan a = false
       /\ fst (add_expense d a c sc n w) = Return (ok_record (next_rowid t))
       /\ disk (snd (add_expense d a c sc n w))
          = Some (appended t d (stored_real a) c (default_arg "" sc)
                           (default_arg "" n)))
   \/ (exists e,
          fst (add_expense d a c sc n w) = Raise e
          /\ disk (snd (add_expense d a c sc n w)) = disk w
          /\ (first_fault 3 (faults w) = Some e
              \/ e = no_such_table
              \/ e = database_full
              \/ (e = not_null_amount /\ PrimFloat.is_nan a = true))))
  /\ (exists evs,
         log (snd (add_expense d a c sc n w)) = (log w ++ evs)%list
         /\ (executions evs <= 1)%nat).
Proof.
  split.
  - pose proof (add_expense_run d a c sc n w) as Hrun. unfold quiet.
    destruct (first_fault 2 (faults w)) as [e|] eqn:E2.
    { injection Hrun as Hr Hd. right. exists e.
      auto using first_fault_more. }
    destruct (disk w) as [t|] eqn:Hdisk.
    2: { injection Hrun as Hr Hd. right. exists no_such_table. auto. }
    destruct (MAX_ROWID <? next_rowid t).
    { injection Hrun as Hr Hd. right. exists database_full. auto 8. }
    destruct (PrimFloat.is_nan a) eqn:Enan.
    { injection Hrun as Hr Hd. right. exists not_null_amount.
      split; [exact Hr|]. split; [exact Hd|].
      right. right. right. split; reflexivity. }
    destruct (first_fault 3 (faults w)) as [e|] eqn:E3.
    { injection Hrun as Hr Hd. right. exists e. auto. }
    injection Hrun as Hr Hd. left. exists t. repeat split; auto.
  - destruct (add_expense_log d a c sc n w) as [evs [Hlog Hevs]].
    exists evs. split; [exact Hlog|].
    destruct Hevs as [-> | [-> | ->]]; unfold executions; simpl; lia.
Qed.

(** ** Identifiers *)

Lemma max_rowid_app (rs rs' : list expense) :
  max_rowid (rs ++ rs') = Z.max (max_rowid rs) (max_rowid rs').
Proof.
  unfold max_rowid, ids. induction rs as [|r rs IH]; simpl.
  - assert (0 <= fold_right Z.max 0 (map row_id rs')).
    { induction rs' as [|r' rs' IH']; simpl; lia. }
    lia.
  - rewrite IH. lia.
Qed.

Lemma max_rowid_bound (rs : list expense) (i : Z) :
  In i (ids rs) -> i <= max_rowid rs.
Proof.
  unfold max_rowid, ids. induction rs as [|r rs IH]; simpl; [tauto|].
  intros [<-|Hin]; [lia|]. specialize (IH Hin). lia.
Qed.

Lemma high_water_bound (db : database) (i : Z) :
  In i (ids (rows_of db)) -> i <= high_water db.
Proof.
  destruct db as [t|]; simpl; [|tauto].
  intros Hin. apply max_rowid_bound in Hin. lia.
Qed.

Lemma high_water_appended (t : table) (d : string) (a : float)
      (c sc n : string) :
  high_water (Some (appended t d a c sc n)) = next_rowid t.
Proof.
  unfold high_water, appended. simpl. rewrite max_rowid_app.
  assert (E : max_rowid
                [mkExpense (next_rowid t) d a c sc n] = Z.max (next_rowid t) 0)
    by reflexivity.
  rewrite E. unfold next_rowid.
  assert (0 <= max_rowid (tbl_rows t)).
  { unfold max_rowid.
    induction (ids (tbl_rows t)) as [|i l IH]; simpl; lia. }
  lia.
Qed.

(** One call: the rows it adds and the id it returns lie above every rowid
    the table has held, and the id it returns is the id of a row it
    added. *)
Lemma handle_ids (k : call) (w : world) :
  exists new,
    rows_of (disk (snd (handle k w))) = (rows_of (disk w) ++ new)%list
    /\ Forall (fun r => high_water (disk w) < row_id r
                        <= high_water (disk (snd (handle k w)))) new
    /\ high_water (disk w) <= high_water (disk (snd (handle k w)))
    /\ (forall i, returned_id (fst (handle k w)) = Some i ->
                  In i (ids new))
    /\ (List.length new <= 1)%nat.
Proof.
  destruct k as [d a c sc n|d1 d2|d1 d2 c|]; simpl;
    rewrite lift_fst, lift_snd.
  - destruct (add_expense_disk d a c sc n w) as [Hsame|[t [Hdisk [Hr Hd]]]].
    + exists []. rewrite Hsame, app_nil_r.
      repeat split; [constructor | lia | | simpl; lia].
      intros i Hi. exfalso.
      pose proof (add_expense_run d a c sc n w) as Hrun.
      destruct (fst (add_expense d a c sc n w)) as [dict0|e];
        [|discriminate Hi].
      destruct (first_fault 2 (faults w)); [discriminate Hrun|].
      destruct (disk w) as [t|] eqn:Hdisk; [|discriminate Hrun].
      destruct (MAX_ROWID <? next_rowid t); [discriminate Hrun|].
      destruct (PrimFloat.is_nan a); [discriminate Hrun|].
      destruct (first_fault 3 (faults w)); [discriminate Hrun|].
      injection Hrun as _ Hd. rewrite Hsame in Hd. injection Hd as Hd.
      apply (f_equal tbl_seq) in Hd. simpl in Hd.
      unfold next_rowid in Hd. lia.
    + rewrite Hr, Hd, Hdisk, high_water_appended.
      exists [mkExpense (next_rowid t) d (stored_real a) c
                        (default_arg "" sc) (default_arg "" n)].
      unfold high_water, next_rowid. simpl.
      repeat split; [repeat constructor; simpl; lia | lia | | simpl; lia].
      intros i Hi. injection Hi as <-. now left.
  - destruct (list_expenses_world d1 d2 w) as [-> _].
    exists []. rewrite app_nil_r.
    repeat split; [constructor | lia | | simpl; lia].
    destruct (fst (list_expenses d1 d2 w)); discriminate.
  - destruct (summarize_world d1 d2 c w) as [-> _].
    exists []. rewrite app_nil_r.
    repeat split; [constructor | lia | | simpl; lia].
    destruct (fst (summarize d1 d2 c w)); discriminate.
  - rewrite categories_world. exists []. rewrite app_nil_r.
    repeat split; [constructor | lia | | simpl; lia].
    destruct (fst (categories w)); discriminate.
Qed.

Lemma serve_cons (k : call) (cs : list call) (w : world) :
  serve (k :: cs) w =
  (fst (handle k w) :: fst (serve cs (snd (handle k w))),
   snd (serve cs (snd (handle k w)))).
Proof.
  simpl. destruct (handle k w) as [r w1]. simpl.
  destruct (serve cs w1) as [rs w2]. reflexivity.
Qed.

Lemma StronglySorted_app (l1 l2 : list Z) :
  StronglySorted Z.lt l1 -> StronglySorted Z.lt l2 ->
  (forall a b, In a l1 -> In b l2 -> a < b) ->
  StronglySorted Z.lt (l1 ++ l2).
Proof.
  induction 1 as [|x l1 Hs IH Hall]; simpl; intros H2 Hlt; trivial.
  constructor.
  - apply IH; trivial. intros a b Ha Hb. apply Hlt; auto.
  - apply Forall_app. split; trivial.
    apply Forall_forall. intros b Hb. apply Hlt; auto.
Qed.

Lemma short_sorted (l : list Z) :
  (List.length l <= 1)%nat -> StronglySorted Z.lt l.
Proof.
  destruct l as [|x [|y l]]; simpl; intros H;
    [constructor | repeat constructor | lia].
Qed.

(** A run of the server: the rows it adds come after the rows that were
    there, their ids ascend and lie above every rowid held before, and the
    ids it returns ascend and are ids of rows it added. *)
Lemma serve_ids (cs : list call) :
  forall w : world,
  exists new,
    rows_of (disk (snd (serve cs w))) = (rows_of (disk w) ++ new)%list
    /\ Forall (fun i => high_water (disk w) < i
                        <= high_water (disk (snd (serve cs w)))) (ids new)
    /\ high_water (disk w) <= high_water (disk (snd (serve cs w)))
    /\ StronglySorted Z.lt (ids new)
    /\ StronglySorted Z.lt (returned_ids (fst (serve cs w)))
    /\ Forall (fun i => In i (ids new)) (returned_ids (fst (serve cs w))).
Proof.
  induction cs as [|k cs IH]; intros w.
  - exists []. simpl. rewrite app_nil_r.
    repeat split; try constructor. lia.
  - rewrite serve_cons. simpl fst. simpl snd.
    destruct (handle_ids k w) as [n1 [Hrows1 [Hnew1 [Hhw1 [Hret1 Hlen1]]]]].
    destruct (IH (snd (handle k w)))
      as [n2 [Hrows2 [Hnew2 [Hhw2 [Hs2 [Hrs2 Hin2]]]]]].
    set (w1 := snd (handle k w)) in *.
    set (w2 := snd (serve cs w1)) in *.
    assert (Hids1 : Forall (fun i => high_water (disk w) < i
                                     <= high_water (disk w1)) (ids n1)).
    { unfold ids. rewrite Forall_map. exact Hnew1. }
    exists (n1 ++ n2)%list.
    assert (Hall : Forall (fun i => high_water (disk w) < i
                                    <= high_water (disk w2))
                          (ids (n1 ++ n2))).
    { unfold ids in *. rewrite map_app. apply Forall_app. split.
      - eapply Forall_impl; [|exact Hids1]. simpl. intros i Hi. lia.
      - eapply Forall_impl; [|exact Hnew2]. simpl. intros i Hi. lia. }
    assert (Hsorted : StronglySorted Z.lt (ids (n1 ++ n2))).
    { unfold ids in *. rewrite map_app. apply StronglySorted_app; trivial.
      - apply short_sorted. now rewrite length_map.
      - intros a b Ha Hb. rewrite Forall_forall in Hids1, Hnew2.
        specialize (Hids1 a Ha). specialize (Hnew2 b Hb). lia. }
    repeat split; trivial.
    + rewrite Hrows2, Hrows1. now rewrite app_assoc.
    + lia.
    + simpl. destruct (returned_id (fst (handle k w))) as [i|] eqn:Ei; trivial.
      constructor; trivial.
      apply Forall_forall. intros j Hj.
      rewrite Forall_forall in Hin2, Hids1, Hnew2.
      specialize (Hids1 i (Hret1 i eq_refl)).
      specialize (Hnew2 j (Hin2 j Hj)). lia.
    + simpl. unfold ids in *. rewrite map_app.
      destruct (returned_id (fst (handle k w))) as [i|] eqn:Ei.
      * constructor.
        -- apply in_or_app. left. now apply Hret1.
        -- eapply Forall_impl; [|exact Hin2].
           intros j Hj. apply in_or_app. now right.
      * eapply Forall_impl; [|exact Hin2].
        intros j Hj. apply in_or_app. now right.
Qed.

(** C3.  Over any sequence of calls, on a store whose rows have distinct
    ids: the ids that the successful [add_expense] calls return ascend
    strictly, so each is greater than all returned before; each is the id
    of a row of the store; the rows that were there stay as they were, in
    front of the new ones; and the ids of the rows stay distinct, so that
    no id passes to another row. *)
Theorem ids_ascend (cs : list call) (w : world) :
  NoDup (ids (rows_of (disk w))) ->
  StronglySorted Z.lt (returned_ids (fst (serve cs w)))
  /\ Forall (fun i => In i (ids (rows_of (disk (snd (serve cs w))))))
            (returned_ids (fst (serve cs w)))
  /\ (exists new,
         rows_of (disk (snd (serve cs w))) = (rows_of (disk w) ++ new)%list)
  /\ NoDup (ids (rows_of (disk (snd (serve cs w))))).
Proof.
  intros Hnd.
  destruct (serve_ids cs w) as [new [Hrows [Hnew [_ [Hs [Hrs Hin]]]]]].
  split; [exact Hrs|]. rewrite Hrows. unfold ids in *. rewrite map_app.
  split; [|split; [eauto|]].
  - eapply Forall_impl; [|exact Hin]. intros i Hi. apply in_or_app. now right.
  - apply NoDup_app; [exact Hnd | |].
    + clear -Hs. induction Hs as [|x l _ IH Hall]; constructor; trivial.
      intros Hx. rewrite Forall_forall in Hall. specialize (Hall x Hx). lia.
    + intros i Hold Hi. apply high_water_bound in Hold.
      rewrite Forall_forall in Hnew. specialize (Hnew i Hi). lia.
Qed.

Lemma ids_ascend_witness :
  StronglySorted Z.lt (returned_ids (fst (serve scenario ledger)))
  /\ Forall (fun i => In i (ids (rows_of (disk (snd (serve scenario ledger))))))
            (returned_ids (fst (serve scenario ledger)))
  /\ (exists new,
         rows_of (disk (snd (serve scenario ledger)))
         = (rows_of (disk ledger) ++ new)%list)
  /\ NoDup (ids (rows_of (disk (snd (serve scenario ledger))))).
Proof.
  apply (ids_ascend scenario ledger).
  simpl. repeat constructor; simpl; intuition discriminate.
Defined.

(** ** The categories resource *)

Lemma universal_newlines_plain (s : string) :
  has_cr s = false -> universal_newlines s = s.
Proof.
  induction s as [|c s IH]; simpl; trivial.
  intros H. apply orb_false_elim in H. destruct H as [Hc Hs].
  rewrite Hc. f_equal. now apply IH.
Qed.

Example utf8_accepts :
  utf8_valid "[1, 2]" = true
  /\ utf8_valid (String "195" (String "169" "")) = true
  /\ utf8_valid (String "226" (String "130" (String "172" ""))) = true
  /\ utf8_valid
       (String "240" (String "159" (String "152" (String "128" "")))) = true.
Proof. repeat split. Qed.

Example utf8_rejects :
  utf8_valid (String "195" "") = false
  /\ utf8_valid (String "192" (String "128" "")) = false
  /\ utf8_valid (String "237" (String "160" (String "128" ""))) = false
  /\ utf8_valid
       (String "244" (String "144" (String "128" (String "128" "")))) = false
  /\ utf8_valid (String "255" "") = false.
Proof. repeat split. Qed.

(** The translation of line endings that [universal_newlines] computes
    is the one [newlines_read] describes. *)
Lemma universal_newlines_read (k : nat) :
  forall s : string,
    (String.length s <= k)%nat -> newlines_read s (universal_newlines s).
Proof.
  induction k as [|k IH]; intros s Hlen.
  - destruct s; simpl in *; [constructor | lia].
  - destruct s as [|c rest]; simpl; [constructor|].
    simpl in Hlen. destruct (Ascii.eqb_spec c CR) as [->|Hc].
    + destruct rest as [|c' rest'].
      * apply read_cr; [reflexivity | constructor].
      * simpl in Hlen. destruct (Ascii.eqb_spec c' LF) as [->|Hc'].
        -- apply read_crlf. apply IH. lia.
        -- apply read_cr.
           ++ simpl. now apply Ascii.eqb_neq.
           ++ apply (IH (String c' rest')). simpl. lia.
    + apply read_byte; [exact Hc|]. apply IH. lia.
Qed.

(** [newlines_read] leaves no choice: a text is read in one way. *)
Lemma newlines_read_unique (s a : string) :
  newlines_read s a -> forall b, newlines_read s b -> a = b.
Proof.
  induction 1 as [|s s' Hs IH|s s' Hlf Hs IH|c s s' Hc Hs IH];
    intros b Hb; inversion Hb; subst; try congruence;
    try (f_equal; now apply IH);
    unfold starts_with_lf in *;
    repeat match goal with
           | H : Ascii.eqb ?x ?x = false |- _ =>
               rewrite Ascii.eqb_refl in H; discriminate H
           end.
Qed.

(** C9, as the code has it.  Every access opens the backing file anew and
    returns its content read as UTF-8 text with universal newlines: for a
    file that is well-formed UTF-8, whatever it says, the answer is the
    content with every carriage return and line feed pair and every other
    carriage return turned into one line feed and every other byte as it
    is, and it is the only such text; content without a carriage return
    comes back as it is.  The access leaves the files alone, and after an
    edit of the file the next access returns the edited content, read the
    same way. *)
Theorem categories_reads_file (w : world) (content : string) :
  read_file CATEGORIES_PATH (files w) = Some content ->
  utf8_valid content = true ->
  exists text : string,
    fst (categories w) = Return text
    /\ newlines_read content text
    /\ (forall other, newlines_read content other -> other = text)
    /\ (has_cr content = false -> text = content)
    /\ log (snd (categories w)) = (log w ++ [EvOpen CATEGORIES_PATH])%list
    /\ files (snd (categories w)) = files w
    /\ (forall edited,
           utf8_valid edited = true ->
           exists text' : string,
             fst (categories (edit_categories edited (snd (categories w))))
             = Return text'
             /\ newlines_read edited text'
             /\ (has_cr edited = false -> text' = edited)).
Proof.
  intros Hfile Hutf. exists (universal_newlines content).
  assert (Hread : forall s, newlines_read s (universal_newlines s)).
  { intros s. apply (universal_newlines_read (String.length s)).
    apply Nat.le_refl. }
  unfold categories, read_text. simpl. rewrite Hfile, Hutf. simpl.
  split; [reflexivity|]. split; [apply Hread|].
  split; [intros other Ho; symmetry;
          exact (newlines_read_unique _ _ (Hread content) _ Ho)|].
  split; [apply universal_newlines_plain|].
  split; [reflexivity|]. split; [reflexivity|].
  intros edited Hutf'. exists (universal_newlines edited).
  rewrite Hutf'. split; [reflexivity|]. split; [apply Hread|].
  apply universal_newlines_plain.
Qed.

Lemma categories_reads_file_witness :
  exists text : string,
    fst (categories mixed_shelf) = Return text
    /\ newlines_read mixed_text text
    /\ (forall other, newlines_read mixed_text other -> other = text)
    /\ (has_cr mixed_text = false -> text = mixed_text)
    /\ log (snd (categories mixed_shelf))
       = (log mixed_shelf ++ [EvOpen CATEGORIES_PATH])%list
    /\ files (snd (categories mixed_shelf)) = files mixed_shelf
    /\ (forall edited,
           utf8_valid edited = true ->
           exists text' : string,
             fst (categories
                    (edit_categories edited (snd (categories mixed_shelf))))
             = Return text'
             /\ newlines_read edited text'
             /\ (has_cr edited = false -> text' = edited)).
Proof.
  apply (categories_reads_file mixed_shelf mixed_text); reflexivity.
Defined.

(** Both kinds of line ending of [mixed_text] come back as a line feed,
    and a file that is no JSON comes back as it is. *)
Example categories_mixed :
  fst (categories mixed_shelf)
  = Return (String "a" (String LF (String "b" (String LF "c"))))
  /\ fst (categories shelf) = Return "food, transport".
Proof. split; reflexivity. Qed.

(** C9 as stated fails: the four bytes of [crlf_json] come back as three,
    the line ending CR LF turned into LF. *)
Lemma categories_crlf_counterexample :
  read_file CATEGORIES_PATH (files crlf_shelf) = Some crlf_json
  /\ fst (categories crlf_shelf) = Return lf_json
  /\ fst (categories crlf_shelf) <> Return crlf_json.
Proof.
  split; [reflexivity|]. split; [reflexivity|]. discriminate.
Qed.

(** ** Rows in insertion order *)

Lemma filter_sorted {A : Type} (R : A -> A -> Prop) (p : A -> bool)
      (l : list A) :
  StronglySorted R l -> StronglySorted R (filter p l).
Proof.
  induction 1 as [|x l Hs IH Hall]; simpl; [constructor|].
  destruct (p x); trivial. constructor; trivial.
  rewrite Forall_forall in *. intros y Hy. apply filter_In in Hy.
  apply Hall. tauto.
Qed.

Lemma ascending_rows (l : list expense) :
  StronglySorted Z.lt (ids l) -> StronglySorted (le_of id_leb) l.
Proof.
  induction l as [|r l IH]; simpl; intros H; [constructor|].
  inversion H as [|? ? Hs Hall]; subst. constructor; [now apply IH|].
  unfold ids in Hall. rewrite Forall_map in Hall.
  eapply Forall_impl; [|exact Hall].
  intros r' Hlt. unfold le_of, id_leb. apply Z.leb_le. simpl in Hlt. lia.
Qed.

(** When the ids ascend along the table, [list_expenses] answers with the
    rows in range exactly as the table holds them. *)
Lemma list_expenses_insertion_order (w : world) (t : table) (d1 d2 : string) :
  disk w = Some t ->
  quiet 2 w ->
  StronglySorted Z.lt (ids (tbl_rows t)) ->
  fst (list_expenses d1 d2 w)
  = Return (map expense_record (filter (in_range d1 d2) (tbl_rows t))).
Proof.
  intros Hdisk Hquiet Hasc.
  rewrite list_expenses_result, Hquiet, Hdisk, order_by_fixed; trivial.
  apply StronglySorted_Sorted, filter_sorted, ascending_rows, Hasc.
Qed.

(** The ids ascend along the table of every store that the server has
    filled from an empty relation. *)
Lemma served_rows_ascend (cs : list call) (w : world) :
  rows_of (disk w) = [] ->
  StronglySorted Z.lt (ids (rows_of (disk (snd (serve cs w))))).
Proof.
  intros Hempty.
  destruct (serve_ids cs w) as [new [Hrows [_ [_ [Hs _]]]]].
  rewrite Hrows, Hempty. exact Hs.
Qed.

(** A query on a store that holds the relation raises only what the
    engine raised. *)
Lemma list_expenses_raises (w : world) (t : table) (d1 d2 : string)
      (e : Error) :
  disk w = Some t ->
  fst (list_expenses d1 d2 w) = Raise e ->
  first_fault 2 (faults w) = Some e.
Proof.
  intros Hdisk. rewrite list_expenses_result, Hdisk.
  destruct (first_fault 2 (faults w)); congruence.
Qed.

(** Calling [init_db] again after a call that went through changes
    nothing, whatever the engine does the second time. *)
Lemma init_db_twice (w : world) :
  fst (init_db w) = Return tt ->
  disk (snd (init_db (snd (init_db w)))) = disk (snd (init_db w)).
Proof.
  intros Hfirst.
  pose proof (init_db_run w) as H1.
  pose proof (init_db_run (snd (init_db w))) as H2.
  destruct (first_fault 2 (faults (snd (init_db w))));
    injection H2 as _ H2; trivial.
  rewrite H2. destruct (disk (snd (init_db w))) eqn:E; trivial.
  destruct (first_fault 2 (faults w)); injection H1 as H1 Hd.
  - congruence.
  - destruct (disk w); discriminate Hd.
Qed.

(** * Further properties *)

(** ** An insert followed by a query *)

Lemma ok_record_inj (i j : Z) : ok_record i = ok_record j -> i = j.
Proof. unfold ok_record. congruence. Qed.

(** A call of [add_expense] that returns has stored its row under the
    next rowid and answers with that id. *)
Lemma add_expense_success (d : string) (a : float) (c : string)
      (sc n : option string) (w : world) (t : table) (r : dict) :
  disk w = Some t ->
  fst (add_expense d a c sc n w) = Return r ->
  r = ok_record (next_rowid t)
  /\ disk (snd (add_expense d a c sc n w))
     = Some (appended t d (stored_real a) c (default_arg "" sc)
                      (default_arg "" n))
  /\ next_rowid t <= MAX_ROWID
  /\ PrimFloat.is_nan a = false.
Proof.
  intros Hdisk Hret. pose proof (add_expense_run d a c sc n w) as Hrun.
  rewrite Hret, Hdisk in Hrun.
  destruct (first_fault 2 (faults w)); [discriminate Hrun|].
  destruct (MAX_ROWID <? next_rowid t) eqn:Efull; [discriminate Hrun|].
  destruct (PrimFloat.is_nan a); [discriminate Hrun|].
  destruct (first_fault 3 (faults w)); [discriminate Hrun|].
  injection Hrun as Hr Hd. apply Z.ltb_ge in Efull. auto.
Qed.

Lemma appended_ascending (t : table) (d : string) (a : float)
      (c sc n : string) :
  StronglySorted Z.lt (ids (tbl_rows t)) ->
  StronglySorted Z.lt (ids (tbl_rows (appended t d a c sc n))).
Proof.
  intros Hasc. unfold appended, ids. simpl. rewrite map_app.
  apply StronglySorted_app; trivial.
  - repeat constructor.
  - intros x y Hx Hy. simpl in Hy. destruct Hy as [<-|[]].
    apply (max_rowid_bound (tbl_rows t)) in Hx. unfold next_rowid. lia.
Qed.

(** X1.  Round trip of an insert and a range query, on a table whose ids
    ascend: after [add_expense] has returned the id [i], [list_expenses]
    answers with what it answered before, followed by the record of the new
    row when its date lies in the range, and by nothing when it does not.
    The record carries the id [i], the date and category given, the amount
    as the engine stores it (the amount given, negative zero as zero), and
    the empty string for a subcategory or note that was left out. *)
Theorem add_then_list (w : world) (t : table) (d : string) (a : float)
        (c : string) (sc n : option string) (i : Z) (d1 d2 : string) :
  disk w = Some t ->
  StronglySorted Z.lt (ids (tbl_rows t)) ->
  fst (add_expense d a c sc n w) = Return (ok_record i) ->
  quiet 2 (snd (add_expense d a c sc n w)) ->
  fst (list_expenses d1 d2 (snd (add_expense d a c sc n w)))
  = Return
      (map expense_record (filter (in_range d1 d2) (tbl_rows t))
       ++ (if in_range d1 d2 (new_row i d a c sc n)
           then [expense_record (new_row i d a c sc n)]
           else []))%list.
Proof.
  intros Hdisk Hasc Hret Hquiet.
  destruct (add_expense_success d a c sc n w t _ Hdisk Hret) as [Hi [Hd _]].
  apply ok_record_inj in Hi. subst i.
  rewrite (list_expenses_insertion_order _ _ d1 d2 Hd Hquiet).
  - unfold appended. simpl. rewrite filter_app, map_app. simpl.
    unfold new_row. destruct (in_range d1 d2 _); reflexivity.
  - now apply appended_ascending.
Qed.

Lemma add_then_list_witness :
  fst (list_expenses "2024-01-01" "2024-01-31"
         (snd (add_expense "2024-01-20" 7%float "food" None None ledger)))
  = Return
      (map expense_record
           (filter (in_range "2024-01-01" "2024-01-31")
                   (tbl_rows ledger_table))
       ++ (if in_range "2024-01-01" "2024-01-31"
                       (new_row 3 "2024-01-20" 7%float "food" None None)
           then [expense_record
                   (new_row 3 "2024-01-20" 7%float "food" None None)]
           else []))%list.
Proof.
  apply (add_then_list ledger ledger_table); try reflexivity.
  repeat constructor.
Defined.

(** ** One category *)

(** The answer of [summarize] with a category that is not the empty
    string. *)
Lemma summarize_category_result (w : world) (t : table) (d1 d2 c : string) :
  c <> "" ->
  disk w = Some t ->
  quiet 2 w ->
  fst (summarize d1 d2 (Some c) w) =
  Return
    (map total_record
       match amounts_of c (filter (in_range d1 d2) (tbl_rows t)) with
       | [] => []
       | _ :: _ =>
           [ (c, sum (amounts_of c (filter (in_range d1 d2) (tbl_rows t)))) ]
       end).
Proof.
  intros Hc Hdisk Hquiet.
  rewrite summarize_result, Hquiet, Hdisk, (selected_one d1 d2 c _ Hc).
  unfold amounts_of.
  set (rs := filter _ (filter (in_range d1 d2) (tbl_rows t))).
  rewrite (group_sum_single c rs).
  - destruct rs; reflexivity.
  - intros r Hr. apply filter_In in Hr. now apply String.eqb_eq.
Qed.

Lemma sum_snoc (xs : list float) (a : float) :
  sum (xs ++ [a]) = PrimFloat.add (sum xs) a.
Proof. unfold sum. now rewrite fold_left_app. Qed.

(** X2.  An insert followed by [summarize] for the category of the new
    row, over a range that holds its date: the answer is the single record
    of that category, and its total is the floating-point total of the
    rows that were there (zero when there were none) plus the new amount
    as stored; a total that is not a number shows as [None]. *)
Theorem add_then_summarize (w : world) (t : table) (d : string) (a : float)
        (c : string) (sc n : option string) (r : dict) (d1 d2 : string) :
  c <> "" ->
  disk w = Some t ->
  fst (add_expense d a c sc n w) = Return r ->
  quiet 2 (snd (add_expense d a c sc n w)) ->
  ((d1 <=? d)%string && (d <=? d2)%string = true) ->
  fst (summarize d1 d2 (Some c) (snd (add_expense d a c sc n w)))
  = Return
      [ total_record
          (c, PrimFloat.add
                (sum (amounts_of c (filter (in_range d1 d2) (tbl_rows t))))
                (stored_real a)) ].
Proof.
  intros Hc Hdisk Hret Hquiet Hrange.
  destruct (add_expense_success d a c sc n w t r Hdisk Hret) as [_ [Hd _]].
  rewrite (summarize_category_result _ _ d1 d2 c Hc Hd Hquiet).
  unfold appended. simpl. rewrite filter_app. simpl.
  unfold in_range at 2 4. simpl. rewrite Hrange.
  unfold amounts_of. rewrite !filter_app, !map_app. simpl.
  rewrite String.eqb_refl. simpl.
  rewrite sum_snoc.
  destruct (map row_amount _ ++ [stored_real a])%list eqn:E; [|reflexivity].
  exfalso. symmetry in E. revert E. apply app_cons_not_nil.
Qed.

Lemma add_then_summarize_witness :
  fst (summarize "2024-01-01" "2024-01-31" (Some "food")
         (snd (add_expense "2024-01-20" 7%float "food" None None ledger)))
  = Return
      [ total_record
          ("food",
           PrimFloat.add
             (sum (amounts_of "food"
                     (filter (in_range "2024-01-01" "2024-01-31")
                             (tbl_rows ledger_table))))
             (stored_real 7%float)) ].
Proof.
  apply (add_then_summarize ledger ledger_table "2024-01-20" 7%float "food"
           None None (ok_record 3));
    [discriminate | reflexivity | reflexivity | reflexivity | reflexivity].
Defined.

(** ** The bounds of a range *)

Lemma in_range_widen (d1 d2 e1 e2 : string) (r : expense) :
  text_le e1 d1 = true -> text_le d2 e2 = true ->
  in_range d1 d2 r = true -> in_range e1 e2 r = true.
Proof.
  unfold in_range. fold (text_le d1 (row_date r)) (text_le (row_date r) d2)
    (text_le e1 (row_date r)) (text_le (row_date r) e2).
  intros H1 H2 H. apply andb_true_iff in H. destruct H as [Ha Hb].
  apply andb_true_iff. split; eauto using text_le_trans.
Qed.

Lemma in_range_point (d : string) (r : expense) :
  in_range d d r = true <-> row_date r = d.
Proof.
  unfold in_range. rewrite andb_true_iff. split.
  - intros [Ha Hb]. now apply String.leb_antisym.
  - intros ->. split; apply text_le_refl.
Qed.

(** X3.  Widening the bounds never loses a record: with an earlier start
    and a later end, in the order of text, [list_expenses] answers with
    every record it answers with for the narrower bounds. *)
Theorem list_expenses_monotone (w : world) (t : table)
        (d1 d2 e1 e2 : string) :
  disk w = Some t ->
  quiet 2 w ->
  text_le e1 d1 = true ->
  text_le d2 e2 = true ->
  exists narrow wide : list dict,
    fst (list_expenses d1 d2 w) = Return narrow
    /\ fst (list_expenses e1 e2 w) = Return wide
    /\ (forall rec, In rec narrow -> In rec wide).
Proof.
  intros Hdisk Hquiet H1 H2.
  rewrite !list_expenses_result, Hquiet, Hdisk.
  eexists. eexists. split; [reflexivity|]. split; [reflexivity|].
  intros rec Hrec. apply in_map_iff in Hrec. destruct Hrec as [r [<- Hr]].
  apply in_map.
  apply (Permutation_in _ (order_by_perm id_leb _)) in Hr.
  apply (Permutation_in _ (Permutation_sym (order_by_perm id_leb _))).
  apply filter_In in Hr. apply filter_In.
  split; [tauto|]. apply (in_range_widen d1 d2); tauto.
Qed.

Lemma list_expenses_monotone_witness :
  exists narrow wide : list dict,
    fst (list_expenses "2024-01-04" "2024-01-06" ledger) = Return narrow
    /\ fst (list_expenses "2024-01-01" "2024-01-31" ledger) = Return wide
    /\ (forall rec, In rec narrow -> In rec wide).
Proof.
  apply (list_expenses_monotone ledger ledger_table); reflexivity.
Defined.

(** X4.  With the same text as start and end, [list_expenses] answers with
    the rows whose date is that very text, and with no other row. *)
Theorem list_expenses_single_date (w : world) (t : table) (d : string) :
  disk w = Some t ->
  quiet 2 w ->
  exists out : list expense,
    fst (list_expenses d d w) = Return (map expense_record out)
    /\ (forall r, In r out <-> In r (tbl_rows t) /\ row_date r = d).
Proof.
  intros Hdisk Hquiet. rewrite list_expenses_result, Hquiet, Hdisk.
  eexists. split; [reflexivity|]. intros r.
  rewrite <- in_range_point, <- filter_In. split.
  - apply (Permutation_in _ (order_by_perm id_leb _)).
  - apply (Permutation_in _ (Permutation_sym (order_by_perm id_leb _))).
Qed.

Lemma list_expenses_single_date_witness :
  exists out : list expense,
    fst (list_expenses "2024-01-05" "2024-01-05" ledger)
    = Return (map expense_record out)
    /\ (forall r, In r out <->
                  In r (tbl_rows ledger_table) /\ row_date r = "2024-01-05").
Proof.
  apply (list_expenses_single_date ledger ledger_table); reflexivity.
Defined.

Lemma selected_in_range (d1 d2 : string) (c : option string) (r : expense) :
  in_range d1 d2 r = false -> selected d1 d2 c r = false.
Proof. unfold selected. now intros ->. Qed.

(** X5.  [summarize] over bounds that no row lies between, or with the end
    before the start, answers with the empty list, with or without a
    category. *)
Theorem summarize_empty_range (w : world) (t : table) (d1 d2 : string)
        (c : option string) :
  disk w = Some t ->
  quiet 2 w ->
  (forall r, In r (tbl_rows t) -> in_range d1 d2 r = false)
  \/ text_lt d2 d1 = true ->
  fst (summarize d1 d2 c w) = Return [].
Proof.
  intros Hdisk Hquiet Hempty.
  rewrite summarize_result, Hquiet, Hdisk.
  rewrite filter_none; [reflexivity|].
  intros r Hr. apply selected_in_range.
  destruct Hempty as [Hnone|Hlt]; [now apply Hnone|].
  apply (between_empty (row_date r) d1 d2 Hlt).
Qed.

Lemma summarize_empty_range_witness :
  fst (summarize "2024-03-01" "2024-03-31" (Some "food") ledger) = Return [].
Proof.
  apply (summarize_empty_range ledger ledger_table);
    [reflexivity | reflexivity | left].
  intros r [<-|[<-|[]]]; reflexivity.
Defined.

(** ** The filtered and the unfiltered summary *)

Lemma assoc_perm (c : string) (l l' : list (string * float)) :
  Permutation l l' -> NoDup (map fst l) -> assoc c l = assoc c l'.
Proof.
  intros Hperm Hnd.
  assert (Hnd' : NoDup (map fst l')).
  { eapply Permutation_NoDup; [|exact Hnd]. now apply Permutation_map. }
  destruct (assoc c l) as [x|] eqn:E.
  - symmetry. apply (assoc_in c x l' Hnd').
    apply (Permutation_in _ Hperm). now apply (assoc_in c x l Hnd).
  - destruct (assoc c l') as [y|] eqn:E'; trivial.
    apply (assoc_in c y l' Hnd') in E'.
    apply (Permutation_in _ (Permutation_sym Hperm)) in E'.
    apply (assoc_in c y l Hnd) in E'. congruence.
Qed.

Lemma filter_key (c : string) (l : list (string * float)) :
  NoDup (map fst l) ->
  filter (fun g => String.eqb (fst g) c) l =
  match assoc c l with
  | Some x => [(c, x)]
  | None => []
  end.
Proof.
  induction l as [|[k x] l IH]; simpl; intros Hnd; trivial.
  inversion Hnd as [|? ? Hout Hnd']; subst.
  destruct (String.eqb_spec k c) as [->|Hne].
  - f_equal. apply filter_none. intros [k' y] Hin. simpl.
    apply String.eqb_neq. intros ->. apply Hout.
    change c with (fst (c, y)). now apply in_map.
  - now apply IH.
Qed.

(** X6.  The answer of [summarize] with a category that is not the empty
    string is the answer without a category cut down to the records of
    that category: the filter changes which totals are shown, not their
    value, a total that is not a number showing as [None] in both. *)
Theorem summarize_filter_selects (w : world) (t : table) (d1 d2 c : string) :
  c <> "" ->
  disk w = Some t ->
  quiet 2 w ->
  exists totals : list (string * float),
    fst (summarize d1 d2 None w) = Return (map total_record totals)
    /\ fst (summarize d1 d2 (Some c) w)
       = Return (map total_record
                     (filter (fun g => String.eqb (fst g) c) totals)).
Proof.
  intros Hc Hdisk Hquiet.
  set (rs := filter (in_range d1 d2) (tbl_rows t)).
  exists (order_by category_leb (group_sum rs)).
  split.
  - rewrite summarize_result, Hquiet, Hdisk, selected_all. reflexivity.
  - rewrite (summarize_category_result w t d1 d2 c Hc Hdisk Hquiet).
    fold rs. f_equal. f_equal.
    pose proof (order_by_perm category_leb (group_sum rs)) as Hperm.
    rewrite filter_key.
    + rewrite (assoc_perm c _ _ Hperm).
      * rewrite group_sum_assoc. destruct (amounts_of c rs); reflexivity.
      * eapply Permutation_NoDup; [|apply group_sum_nodup].
        apply Permutation_map, Permutation_sym, Hperm.
    + eapply Permutation_NoDup; [|apply group_sum_nodup].
      apply Permutation_map, Permutation_sym, Hperm.
Qed.

Lemma summarize_filter_selects_witness :
  exists totals : list (string * float),
    fst (summarize "2024-01-01" "2024-01-31" None ledger)
    = Return (map total_record totals)
    /\ fst (summarize "2024-01-01" "2024-01-31" (Some "transport") ledger)
       = Return (map total_record
                     (filter (fun g => String.eqb (fst g) "transport")
                             totals)).
Proof.
  apply (summarize_filter_selects ledger ledger_table);
    [discriminate | reflexivity | reflexivity].
Defined.

(** ** The summary and the listing of one range *)

Lemma categories_of_amounts (c : string) (rs : list expense) :
  amounts_of c rs <> [] <-> In c (map row_category rs).
Proof.
  rewrite amounts_of_some, in_map_iff. split.
  - intros [r [Hin Hc]]. exists r. auto.
  - intros [r [Hc Hin]]. exists r. auto.
Qed.

(** X7.  On a table whose ids ascend, the summary agrees with the listing
    of the same range: the categories [summarize] reports are the
    categories of the records [list_expenses] returns, and each total is
    the floating-point sum of the amounts of those records of that
    category, added in the order they are listed; a total that is not a
    number shows as [None]. *)
Theorem summarize_agrees_with_list (w : world) (t : table) (d1 d2 : string) :
  disk w = Some t ->
  quiet 2 w ->
  StronglySorted Z.lt (ids (tbl_rows t)) ->
  exists (listed : list expense) (totals : list (string * float)),
    fst (list_expenses d1 d2 w) = Return (map expense_record listed)
    /\ fst (summarize d1 d2 None w) = Return (map total_record totals)
    /\ (forall c, In c (map fst totals) <-> In c (map row_category listed))
    /\ (forall c x, In (c, x) totals -> x = sum (amounts_of c listed)).
Proof.
  intros Hdisk Hquiet Hasc.
  set (rs := filter (in_range d1 d2) (tbl_rows t)).
  exists rs, (order_by category_leb (group_sum rs)).
  pose proof (order_by_perm category_leb (group_sum rs)) as Hperm.
  split; [now apply list_expenses_insertion_order|].
  split; [rewrite summarize_result, Hquiet, Hdisk, selected_all; reflexivity|].
  split.
  - intros c. rewrite <- categories_of_amounts. split.
    + intros Hin.
      apply (Permutation_in _ (Permutation_map fst Hperm)) in Hin.
      apply assoc_in_keys in Hin. rewrite group_sum_assoc in Hin.
      destruct (amounts_of c rs); [congruence | discriminate].
    + intros Hne.
      apply (Permutation_in _ (Permutation_sym (Permutation_map fst Hperm))).
      apply assoc_in_keys. rewrite group_sum_assoc.
      destruct (amounts_of c rs); [contradiction | discriminate].
  - intros c x Hin.
    apply (Permutation_in _ Hperm) in Hin.
    apply (assoc_in c x _ (group_sum_nodup rs)) in Hin.
    rewrite group_sum_assoc in Hin.
    destruct (amounts_of c rs); [discriminate | congruence].
Qed.

Lemma summarize_agrees_with_list_witness :
  exists (listed : list expense) (totals : list (string * float)),
    fst (list_expenses "2024-01-01" "2024-01-31" ledger)
    = Return (map expense_record listed)
    /\ fst (summarize "2024-01-01" "2024-01-31" None ledger)
       = Return (map total_record totals)
    /\ (forall c, In c (map fst totals) <-> In c (map row_category listed))
    /\ (forall c x, In (c, x) totals -> x = sum (amounts_of c listed)).
Proof.
  apply (summarize_agrees_with_list ledger ledger_table); try reflexivity.
  repeat constructor.
Defined.

(** ** Errors of the queries *)

(** X8.  A query raises only what the engine raised at the connection or
    at the statement, or the error of the missing table: whatever the
    bounds and the category, the query that [summarize] puts together has
    as many parameters as placeholders, and no error comes from there. *)
Theorem queries_raise_only (w : world) (d1 d2 : string) (c : option string)
        (e : Error) :
  fst (list_expenses d1 d2 w) = Raise e
  \/ fst (summarize d1 d2 c w) = Raise e ->
  first_fault 2 (faults w) = Some e
  \/ (disk w = None /\ e = no_such_table).
Proof.
  rewrite list_expenses_result, summarize_result.
  destruct (first_fault 2 (faults w)) as [e'|].
  - intros [H|H]; left; congruence.
  - destruct (disk w).
    + intros [H|H]; discriminate H.
    + intros [H|H]; right; split; congruence.
Qed.

Lemma queries_raise_only_witness :
  first_fault 2 (faults locked) = Some (OperationalError "database is locked")
  \/ (disk locked = None
      /\ OperationalError "database is locked" = no_such_table).
Proof.
  apply (queries_raise_only locked "2024-01-01" "2024-01-31" None).
  left. reflexivity.
Defined.

(** X9.  The tools do not create the relation: on a database without it,
    with the engine serving the calls, [add_expense], [list_expenses] and
    [summarize] each raise the error of the missing table and leave the
    database without the relation. *)
Theorem tools_need_the_table (w : world) (d : string) (a : float)
        (c : string) (sc n : option string) (d1 d2 : string)
        (cat : option string) :
  disk w = None ->
  quiet 2 w ->
  (fst (add_expense d a c sc n w) = Raise no_such_table
   /\ disk (snd (add_expense d a c sc n w)) = None)
  /\ (fst (list_expenses d1 d2 w) = Raise no_such_table
      /\ disk (snd (list_expenses d1 d2 w)) = None)
  /\ (fst (summarize d1 d2 cat w) = Raise no_such_table
      /\ disk (snd (summarize d1 d2 cat w)) = None).
Proof.
  intros Hdisk Hquiet. unfold quiet in Hquiet.
  split; [|split].
  - pose proof (add_expense_run d a c sc n w) as Hrun.
    rewrite Hquiet, Hdisk in Hrun. now injection Hrun.
  - rewrite list_expenses_result, Hquiet, Hdisk.
    destruct (list_expenses_world d1 d2 w) as [-> _]. auto.
  - rewrite summarize_result, Hquiet, Hdisk.
    destruct (summarize_world d1 d2 cat w) as [-> _]. auto.
Qed.

Lemma tools_need_the_table_witness :
  (fst (add_expense "2024-01-05" 12.5%float "food" None None fresh)
   = Raise no_such_table
   /\ disk (snd (add_expense "2024-01-05" 12.5%float "food" None None fresh))
      = None)
  /\ (fst (list_expenses "2024-01-01" "2024-01-31" fresh)
      = Raise no_such_table
      /\ disk (snd (list_expenses "2024-01-01" "2024-01-31" fresh)) = None)
  /\ (fst (summarize "2024-01-01" "2024-01-31" None fresh)
      = Raise no_such_table
      /\ disk (snd (summarize "2024-01-01" "2024-01-31" None fresh)) = None).
Proof.
  apply (tools_need_the_table fresh); reflexivity.
Defined.

(** ** A run of the server *)

Lemma returned_ids_cons (r : outcome response) (rs : list (outcome response)) :
  returned_ids (r :: rs) = (id_added r ++ returned_ids rs)%list.
Proof. unfold id_added. simpl. destruct (returned_id r); reflexivity. Qed.

(** One call appends the row whose id it returns, or no row. *)
Lemma handle_added (k : call) (w : world) :
  exists new,
    rows_of (disk (snd (handle k w))) = (rows_of (disk w) ++ new)%list
    /\ ids new = id_added (fst (handle k w)).
Proof.
  destruct k as [d a c sc n|d1 d2|d1 d2 c|]; simpl;
    rewrite lift_fst, lift_snd.
  - pose proof (add_expense_run d a c sc n w) as Hrun.
    destruct (fst (add_expense d a c sc n w)) as [r|e] eqn:Hret.
    + destruct (disk w) as [t|] eqn:Hdisk.
      * rewrite <- Hret in Hrun.
        destruct (add_expense_success d a c sc n w t r Hdisk Hret)
          as [-> [-> _]].
        eexists. split; [reflexivity|]. reflexivity.
      * exfalso. destruct (first_fault 2 (faults w)); discriminate Hrun.
    + exists []. rewrite app_nil_r. split; [|reflexivity].
      destruct (first_fault 2 (faults w)); [now injection Hrun as _ ->|].
      destruct (disk w) as [t|]; [|now injection Hrun as _ ->].
      destruct (MAX_ROWID <? next_rowid t); [now injection Hrun as _ ->|].
      destruct (PrimFloat.is_nan a); [now injection Hrun as _ ->|].
      destruct (first_fault 3 (faults w)); [now injection Hrun as _ ->|].
      discriminate Hrun.
  - destruct (list_expenses_world d1 d2 w) as [-> _].
    exists []. rewrite app_nil_r. split; trivial.
    destruct (fst (list_expenses d1 d2 w)); reflexivity.
  - destruct (summarize_world d1 d2 c w) as [-> _].
    exists []. rewrite app_nil_r. split; trivial.
    destruct (fst (summarize d1 d2 c w)); reflexivity.
  - rewrite categories_world. exists []. rewrite app_nil_r. split; trivial.
    destruct (fst (categories w)); reflexivity.
Qed.

(** X10.  Over any sequence of calls the rows added to the table are the
    rows of the successful [add_expense] calls, one each: the ids of the
    added rows are the ids returned, in the order of the calls, and a call
    that raises, a query or a read of the resource adds no row. *)
Theorem added_rows_are_returned_ids (cs : list call) (w : world) :
  exists new,
    rows_of (disk (snd (serve cs w))) = (rows_of (disk w) ++ new)%list
    /\ ids new = returned_ids (fst (serve cs w)).
Proof.
  revert w. induction cs as [|k cs IH]; intros w.
  - exists []. simpl. now rewrite app_nil_r.
  - rewrite serve_cons. simpl fst. simpl snd.
    destruct (handle_added k w) as [n1 [Hrows1 Hids1]].
    destruct (IH (snd (handle k w))) as [n2 [Hrows2 Hids2]].
    exists (n1 ++ n2)%list. split.
    + rewrite Hrows2, Hrows1. now rewrite app_assoc.
    + rewrite returned_ids_cons. unfold ids in *.
      now rewrite map_app, Hids1, Hids2.
Qed.

(** One call keeps the relation, its schema, and does not lower its rowid
    counter. *)
Lemma handle_relation (k : call) (w : world) (t : table) :
  disk w = Some t ->
  exists t',
    disk (snd (handle k w)) = Some t'
    /\ tbl_schema t' = tbl_schema t
    /\ tbl_seq t <= tbl_seq t'.
Proof.
  intros Hdisk.
  destruct k as [d a c sc n|d1 d2|d1 d2 c|]; simpl; rewrite lift_snd.
  - destruct (add_expense_disk d a c sc n w) as [->|[t0 [Hd0 [_ ->]]]].
    + exists t. repeat split; [exact Hdisk | lia].
    + rewrite Hdisk in Hd0. injection Hd0 as <-.
      eexists. split; [reflexivity|]. unfold appended, next_rowid. simpl.
      split; [reflexivity | lia].
  - destruct (list_expenses_world d1 d2 w) as [-> _].
    exists t. repeat split; [exact Hdisk | lia].
  - destruct (summarize_world d1 d2 c w) as [-> _].
    exists t. repeat split; [exact Hdisk | lia].
  - rewrite categories_world. exists t. repeat split; [exact Hdisk | lia].
Qed.

(** X11.  No sequence of calls drops the relation or alters its schema,
    and the rowid counter never goes down: what [init_db] has created
    stays as created, whatever is asked of the tools and whatever the
    engine does. *)
Theorem relation_persists (cs : list call) (w : world) (t : table) :
  disk w = Some t ->
  exists t',
    disk (snd (serve cs w)) = Some t'
    /\ tbl_schema t' = tbl_schema t
    /\ tbl_seq t <= tbl_seq t'.
Proof.
  revert w t. induction cs as [|k cs IH]; intros w t Hdisk.
  - exists t. simpl. repeat split; [exact Hdisk | lia].
  - rewrite serve_cons. simpl snd.
    destruct (handle_relation k w t Hdisk) as [t1 [Hd1 [Hs1 Hq1]]].
    destruct (IH _ t1 Hd1) as [t2 [Hd2 [Hs2 Hq2]]].
    exists t2. repeat split; [exact Hd2 | congruence | lia].
Qed.

Lemma relation_persists_witness :
  exists t',
    disk (snd (serve scenario ledger)) = Some t'
    /\ tbl_schema t' = tbl_schema ledger_table
    /\ tbl_seq ledger_table <= tbl_seq t'.
Proof.
  apply (relation_persists scenario ledger ledger_table). reflexivity.
Defined.

(** ** The program on an engine that does not fail *)

Ltac healthy_world w H :=
  let d := fresh "d" in
  let t := fresh "t" in
  let fs := fresh "fs" in
  let fl := fresh "fl" in
  let lg := fresh "lg" in
  destruct w as [d t fs fl lg]; simpl in H; subst fs; destruct d as [?|].

Lemma handle_healthy (k : call) (w : world) :
  faults w = [] -> faults (snd (handle k w)) = [].
Proof.
  intros H. destruct k as [d a c sc n|d1 d2|d1 d2 c|]; simpl;
    rewrite lift_snd.
  - unfold add_expense. healthy_world w H; run_call; trivial.
    destruct (MAX_ROWID <? next_rowid _); trivial.
    destruct (PrimFloat.is_nan a); reflexivity.
  - unfold list_expenses. healthy_world w H; run_call; reflexivity.
  - unfold summarize.
    destruct (truthy c); healthy_world w H; run_call; reflexivity.
  - unfold categories, read_text. simpl.
    destruct (read_file CATEGORIES_PATH (files w)) as [b|]; [|exact H].
    destruct (utf8_valid b); exact H.
Qed.

Lemma init_db_healthy (w : world) :
  faults w = [] ->
  fst (init_db w) = Return tt
  /\ faults (snd (init_db w)) = []
  /\ disk (snd (init_db w))
     = match disk w with
       | Some t => Some t
       | None => Some (mkTable expenses_schema [] 0)
       end.
Proof.
  intros H. unfold init_db. healthy_world w H; run_call; auto.
Qed.

Lemma query_healthy (k : call) (w : world) (t : table) :
  faults w = [] -> disk w = Some t -> is_query k = true ->
  exists ds, fst (handle k w) = Return (RList ds).
Proof.
  intros H Hdisk Hq.
  destruct k as [d a c sc n|d1 d2|d1 d2 c|]; try discriminate Hq; simpl;
    rewrite lift_fst.
  - rewrite list_expenses_result, H, Hdisk. simpl. eauto.
  - rewrite summarize_result, H, Hdisk. simpl. eauto.
Qed.

Lemma serve_length (cs : list call) :
  forall w, List.length (fst (serve cs w)) = List.length cs.
Proof.
  induction cs as [|k cs IH]; intros w; trivial.
  rewrite serve_cons. simpl. now rewrite IH.
Qed.

Lemma serve_queries_succeed (cs : list call) :
  forall (w : world) (t : table),
    faults w = [] -> disk w = Some t ->
    forall k r,
      In (k, r) (combine cs (fst (serve cs w))) ->
      is_query k = true ->
      exists ds, r = Return (RList ds).
Proof.
  induction cs as [|k0 cs IH]; intros w t H Hdisk k r Hin Hq.
  - destruct Hin.
  - rewrite serve_cons in Hin. simpl in Hin. destruct Hin as [Heq|Hin].
    + injection Heq as <- <-. exact (query_healthy k0 w t H Hdisk Hq).
    + destruct (handle_relation k0 w t Hdisk) as [t1 [Hd1 _]].
      exact (IH _ t1 (handle_healthy k0 w H) Hd1 k r Hin Hq).
Qed.

(** X12.  Importing the module makes the tools usable: on an engine that
    does not fail, [init_db] at import returns, every request then gets an
    answer, and every [list_expenses] and [summarize] request is answered
    with a list of records; none finds the table missing, whether or not
    the database held the relation before the import. *)
Theorem import_then_queries_succeed (cs : list call) (w : world) :
  faults w = [] ->
  exists rs w',
    main cs w = (Return rs, w')
    /\ List.length rs = List.length cs
    /\ (forall k r,
           In (k, r) (combine cs rs) -> is_query k = true ->
           exists ds, r = Return (RList ds)).
Proof.
  intros H. destruct (init_db_healthy w H) as [Hret [Hf Hd]].
  unfold main. destruct (init_db w) as [r0 w0]. simpl in *. subst r0.
  destruct (serve cs w0) as [rs w1] eqn:Hserve.
  exists rs, w1. split; [reflexivity|].
  assert (Hrs : rs = fst (serve cs w0)) by now rewrite Hserve.
  split; [rewrite Hrs; apply serve_length|].
  rewrite Hrs. destruct (disk w).
  - now apply serve_queries_succeed with (t := t).
  - now apply serve_queries_succeed with (t := mkTable expenses_schema [] 0).
Qed.

Lemma import_then_queries_succeed_witness :
  exists rs w',
    main scenario fresh = (Return rs, w')
    /\ List.length rs = List.length scenario
    /\ (forall k r,
           In (k, r) (combine scenario rs) -> is_query k = true ->
           exists ds, r = Return (RList ds)).
Proof.
  apply (import_then_queries_succeed scenario fresh). reflexivity.
Defined.

Lemma serve_adds_consecutive (cs : list call) :
  forall (w : world) (t : table),
    faults w = [] -> disk w = Some t ->
    forallb adds_number cs = true ->
    high_water (Some t) + Z.of_nat (List.length cs) <= MAX_ROWID ->
    returned_ids (fst (serve cs w))
    = map (fun j => high_water (Some t) + Z.of_nat j)
          (seq 1 (List.length cs)).
Proof.
  induction cs as [|k cs IH]; intros w t H Hdisk Hadds Hroom; trivial.
  simpl in Hadds. apply andb_true_iff in Hadds. destruct Hadds as [Hk Hadds].
  destruct k as [d a c sc n| | |]; try discriminate Hk.
  simpl in Hk. apply negb_true_iff in Hk.
  rewrite serve_cons.
  change (fst (?x, ?y)) with x. rewrite returned_ids_cons.
  pose proof (add_expense_run d a c sc n w) as Hrun.
  rewrite H, Hdisk in Hrun. simpl in Hrun.
  assert (Hnext : next_rowid t = high_water (Some t) + 1) by reflexivity.
  assert (Hfull : (MAX_ROWID <? next_rowid t) = false).
  { apply Z.ltb_ge. rewrite Hnext.
    change (List.length (AddExpense d a c sc n :: cs))
      with (S (List.length cs)) in Hroom. lia. }
  rewrite Hfull, Hk in Hrun. injection Hrun as Hret Hd.
  assert (Hadded : id_added (fst (handle (AddExpense d a c sc n) w))
                   = [next_rowid t]).
  { simpl. rewrite lift_fst, Hret. reflexivity. }
  rewrite Hadded.
  assert (Hd1 : disk (snd (handle (AddExpense d a c sc n) w))
                = Some (appended t d (stored_real a) c (default_arg "" sc)
                                 (default_arg "" n))).
  { simpl. now rewrite lift_snd. }
  rewrite (IH _ _ (handle_healthy _ w H) Hd1 Hadds).
  - rewrite high_water_appended, Hnext.
    change (List.length (AddExpense d a c sc n :: cs))
      with (S (List.length cs)).
    simpl seq. simpl map. cbn [app].
    apply (f_equal2 cons); [reflexivity|].
    rewrite <- (seq_shift (List.length cs) 1), map_map.
    apply map_ext. intros j. unfold high_water. lia.
  - rewrite high_water_appended, Hnext.
    change (List.length (AddExpense d a c sc n :: cs))
      with (S (List.length cs)) in Hroom. lia.
Qed.

(** X13.  On a new database and an engine that does not fail, the ids are
    the numbers from one on: after the import, a sequence of [add_expense]
    calls whose amounts are numbers, as long as the rowids last, returns
    1, 2, 3 and so on, one for each call. *)
Theorem ids_count_from_one (cs : list call) (w : world) :
  faults w = [] ->
  disk w = None ->
  forallb adds_number cs = true ->
  Z.of_nat (List.length cs) <= MAX_ROWID ->
  exists rs w',
    main cs w = (Return rs, w')
    /\ returned_ids rs = map Z.of_nat (seq 1 (List.length cs)).
Proof.
  intros H Hdisk Hadds Hroom.
  destruct (init_db_healthy w H) as [Hret [Hf Hd]]. rewrite Hdisk in Hd.
  unfold main. destruct (init_db w) as [r0 w0]. simpl in *. subst r0.
  destruct (serve cs w0) as [rs w1] eqn:Hserve.
  exists rs, w1. split; [reflexivity|].
  assert (Hrs : rs = fst (serve cs w0)) by now rewrite Hserve.
  rewrite Hrs.
  rewrite (serve_adds_consecutive cs w0 _ Hf Hd Hadds); [|exact Hroom].
  apply map_ext. intros j. reflexivity.
Qed.

Lemma ids_count_from_one_witness :
  exists rs w',
    main [ AddExpense "2024-01-05" 12.5%float "food" (Some "lunch") None;
           AddExpense "2024-01-10" 40%float "transport" None None;
           AddExpense "2024-01-11" 3%float "food" None (Some "tea") ]
         fresh
    = (Return rs, w')
    /\ returned_ids rs = map Z.of_nat (seq 1 3).
Proof.
  apply (ids_count_from_one
           [ AddExpense "2024-01-05" 12.5%float "food" (Some "lunch") None;
             AddExpense "2024-01-10" 40%float "transport" None None;
             AddExpense "2024-01-11" 3%float "food" None (Some "tea") ]
           fresh);
    try reflexivity.
  unfold MAX_ROWID. simpl. lia.
Defined.

(** ** A failed insert *)

(** X14.  A call of [add_expense] that raises takes no id: the next call
    that returns, on the world the failed one left, gets the id that the
    table had next before the failure, and finds the table as it was. *)
Theorem failed_add_takes_no_id (w : world) (t : table)
        (d : string) (a : float) (c : string) (sc n : option string)
        (e : Error)
        (d' : string) (a' : float) (c' : string) (sc' n' : option string)
        (r : dict) :
  disk w = Some t ->
  fst (add_expense d a c sc n w) = Raise e ->
  fst (add_expense d' a' c' sc' n' (snd (add_expense d a c sc n w)))
  = Return r ->
  r = ok_record (next_rowid t)
  /\ disk (snd (add_expense d a c sc n w)) = Some t.
Proof.
  intros Hdisk Hfail Hnext.
  assert (Hsame : disk (snd (add_expense d a c sc n w)) = Some t).
  { destruct (add_expense_disk d a c sc n w) as [->|[t0 [_ [Hret _]]]];
      [exact Hdisk | congruence]. }
  split; [|exact Hsame].
  now destruct (add_expense_success d' a' c' sc' n' _ t r Hsame Hnext).
Qed.

Lemma failed_add_takes_no_id_witness :
  ok_record 3 = ok_record (next_rowid ledger_table)
  /\ disk (snd (add_expense "2024-01-20" 7%float "food" None None locked))
     = Some ledger_table.
Proof.
  apply (failed_add_takes_no_id locked ledger_table
           "2024-01-20" 7%float "food" None None
           (OperationalError "database is locked")
           "2024-01-21" 8%float "rent" None None (ok_record 3));
    reflexivity.
Defined.

(** ** Text mode *)

Lemma universal_newlines_facts (k : nat) :
  forall s : string,
    (String.length s <= k)%nat ->
    has_cr (universal_newlines s) = false
    /\ (String.length (universal_newlines s) <= String.length s)%nat.
Proof.
  induction k as [|k IH]; intros s Hlen.
  - destruct s; simpl in *; [auto | lia].
  - destruct s as [|c rest]; simpl; [auto|].
    simpl in Hlen. destruct (Ascii.eqb c CR) eqn:Ec.
    + destruct rest as [|c' rest']; simpl; [split; [reflexivity | lia]|].
      simpl in Hlen. destruct (Ascii.eqb c' LF) eqn:El; simpl.
      * destruct (IH rest') as [Hcr Hle]; [lia|]. split; [exact Hcr | lia].
      * destruct (IH (String c' rest')) as [Hcr Hle]; [simpl; lia|].
        split; [exact Hcr|]. simpl in Hle. lia.
    + simpl. rewrite Ec. simpl.
      destruct (IH rest) as [Hcr Hle]; [lia|]. split; [exact Hcr | lia].
Qed.

(** X15.  What [categories] returns holds no carriage return and is no
    longer than the file: it returns only when the file is there and is
    well-formed UTF-8, and then every line ending has become a line
    feed. *)
Theorem categories_text (w : world) (s : string) :
  fst (categories w) = Return s ->
  has_cr s = false
  /\ exists content,
       read_file CATEGORIES_PATH (files w) = Some content
       /\ utf8_valid content = true
       /\ (String.length s <= String.length content)%nat.
Proof.
  unfold categories, read_text. simpl.
  destruct (read_file CATEGORIES_PATH (files w)) as [content|];
    [|discriminate].
  destruct (utf8_valid content) eqn:Hutf; [|discriminate].
  simpl. intros Hret. injection Hret as <-.
  destruct (universal_newlines_facts (String.length content) content
              (Nat.le_refl _)) as [Hcr Hle].
  split; [exact Hcr|]. exists content. auto.
Qed.

Lemma categories_text_witness :
  has_cr lf_json = false
  /\ exists content,
       read_file CATEGORIES_PATH (files crlf_shelf) = Some content
       /\ utf8_valid content = true
       /\ (String.length lf_json <= String.length content)%nat.
Proof.
  apply (categories_text crlf_shelf lf_json). reflexivity.
Defined.

(** ** Rows as dictionaries *)

Lemma dict_set_new (k : string) (v : value) (d : dict) :
  ~ In k (keys d) -> dict_set k v d = (d ++ [(k, v)])%list.
Proof.
  induction d as [|[k' v'] d IH]; simpl; intros Hout; trivial.
  destruct (String.eqb_spec k' k) as [->|Hne]; [tauto|].
  rewrite IH; [reflexivity | tauto].
Qed.

Lemma dict_fold_distinct (pairs : list (string * value)) :
  forall acc : dict,
    NoDup (keys acc ++ map fst pairs) ->
    fold_left (fun d kv => dict_set (fst kv) (snd kv) d) pairs acc
    = (acc ++ pairs)%list.
Proof.
  induction pairs as [|[k v] ps IH]; simpl; intros acc Hnd.
  - now rewrite app_nil_r.
  - rewrite dict_set_new.
    + rewrite IH.
      * now rewrite <- app_assoc.
      * unfold keys in *. rewrite map_app, <- app_assoc. exact Hnd.
    + apply NoDup_remove_2 in Hnd. intros Hin. apply Hnd.
      apply in_or_app. now left.
Qed.

Lemma combine_keys_nodup (cols : list string) :
  forall vals : list value,
    NoDup cols -> NoDup (map fst (combine cols vals)).
Proof.
  induction cols as [|c cols IH]; intros vals Hnd; simpl; [constructor|].
  destruct vals as [|v vals]; simpl; [constructor|].
  inversion Hnd as [|? ? Hout Hnd']; subst. constructor; [|now apply IH].
  intros Hin. apply Hout. apply in_map_iff in Hin.
  destruct Hin as [[c' v'] [<- Hin]]. now apply in_combine_l in Hin.
Qed.

Lemma combine_split (cols : list string) :
  forall vals : list value,
    List.length cols = List.length vals ->
    map fst (combine cols vals) = cols /\ map snd (combine cols vals) = vals.
Proof.
  induction cols as [|c cols IH]; intros [|v vals] Hlen; simpl in *;
    try discriminate; [auto|].
  destruct (IH vals) as [-> ->]; [lia | auto].
Qed.

(** X16.  Turning a result row into a dictionary loses nothing when the
    column names are distinct and the row has one value for each: the
    dictionary has the column names as its keys, in the order of the
    columns, and the values of the row under them. *)
Theorem row_to_dict (cols : list string) (vals : list value) :
  NoDup cols ->
  List.length cols = List.length vals ->
  dict_of (zip cols vals) = zip cols vals
  /\ keys (dict_of (zip cols vals)) = cols
  /\ map snd (dict_of (zip cols vals)) = vals.
Proof.
  intros Hnd Hlen.
  assert (E : dict_of (zip cols vals) = zip cols vals).
  { unfold dict_of, zip. rewrite dict_fold_distinct; [reflexivity|].
    simpl. now apply combine_keys_nodup. }
  rewrite E. unfold keys, zip. split; [reflexivity|].
  now apply combine_split.
Qed.

Lemma row_to_dict_witness :
  dict_of (zip expense_fields
               [VInteger 1; VText "2024-01-05"; VReal 12.5%float;
                VText "food"; VText "lunch"; VText ""])
  = zip expense_fields
        [VInteger 1; VText "2024-01-05"; VReal 12.5%float;
         VText "food"; VText "lunch"; VText ""]
  /\ keys (dict_of (zip expense_fields
                        [VInteger 1; VText "2024-01-05"; VReal 12.5%float;
                         VText "food"; VText "lunch"; VText ""]))
     = expense_fields
  /\ map snd (dict_of (zip expense_fields
                           [VInteger 1; VText "2024-01-05"; VReal 12.5%float;
                            VText "food"; VText "lunch"; VText ""]))
     = [VInteger 1; VText "2024-01-05"; VReal 12.5%float;
        VText "food"; VText "lunch"; VText ""].
Proof.
  apply (row_to_dict expense_fields); [|reflexivity].
  unfold expense_fields.
  repeat constructor; simpl; intuition discriminate.
Defined.

(** ** An insert that a summary does not see *)

(** X17.  A new row of another category, or with a date outside the
    range, leaves the summary of a category as it was: [summarize] for the
    category [c] answers after the insert as it answered before. *)
Theorem add_elsewhere_keeps_summary (w : world) (t : table)
        (d : string) (a : float) (k : string) (sc n : option string)
        (r : dict) (d1 d2 c : string) :
  c <> "" ->
  disk w = Some t ->
  quiet 2 w ->
  fst (add_expense d a k sc n w) = Return r ->
  quiet 2 (snd (add_expense d a k sc n w)) ->
  k <> c \/ ((d1 <=? d)%string && (d <=? d2)%string = false) ->
  fst (summarize d1 d2 (Some c) (snd (add_expense d a k sc n w)))
  = fst (summarize d1 d2 (Some c) w).
Proof.
  intros Hc Hdisk Hquiet Hret Hquiet' Helse.
  destruct (add_expense_success d a k sc n w t r Hdisk Hret) as [_ [Hd _]].
  rewrite (summarize_category_result _ _ d1 d2 c Hc Hd Hquiet').
  rewrite (summarize_category_result _ _ d1 d2 c Hc Hdisk Hquiet).
  assert (E : amounts_of c
                (filter (in_range d1 d2)
                   (tbl_rows (appended t d (stored_real a) k
                                       (default_arg "" sc)
                                       (default_arg "" n))))
              = amounts_of c (filter (in_range d1 d2) (tbl_rows t))).
  { unfold appended, amounts_of. simpl. rewrite filter_app. simpl.
    unfold in_range at 2. simpl.
    destruct ((d1 <=? d)%string && (d <=? d2)%string) eqn:Erange.
    - destruct Helse as [Hk|Hout]; [|discriminate Hout].
      rewrite filter_app. simpl.
      destruct (String.eqb_spec k c) as [Heq|_]; [contradiction|].
      now rewrite app_nil_r.
    - now rewrite app_nil_r. }
  now rewrite E.
Qed.

Lemma add_elsewhere_keeps_summary_witness :
  fst (summarize "2024-01-01" "2024-01-31" (Some "food")
         (snd (add_expense "2024-01-20" 7%float "rent" None None ledger)))
  = fst (summarize "2024-01-01" "2024-01-31" (Some "food") ledger).
Proof.
  apply (add_elsewhere_keeps_summary ledger ledger_table
           "2024-01-20" 7%float "rent" None None (ok_record 3));
    try reflexivity; [discriminate | left; discriminate].
Defined.

(** ** The first call of [init_db] *)

(** X18.  [init_db] either returns, the engine having served the
    connection and the statement, and then the relation is there with the
    rows it had, a relation made by this call being empty and having the
    six columns of the source; or it raises what the engine raised, and
    the database is as it was. *)
Theorem init_db_outcome (w : world) :
  (fst (init_db w) = Return tt
   /\ quiet 2 w
   /\ exists t,
        disk (snd (init_db w)) = Some t
        /\ tbl_rows t = rows_of (disk w)
        /\ (disk w = None -> t = mkTable expenses_schema [] 0))
  \/ (exists e,
         fst (init_db w) = Raise e
         /\ first_fault 2 (faults w) = Some e
         /\ disk (snd (init_db w)) = disk w).
Proof.
  pose proof (init_db_run w) as Hrun. unfold quiet.
  destruct (first_fault 2 (faults w)) as [e|]; injection Hrun as Hr Hd.
  - right. exists e. auto.
  - left. split; [exact Hr|]. split; [reflexivity|].
    destruct (disk w) as [t|].
    + exists t. repeat split; [exact Hd | discriminate].
    + eexists. split; [exact Hd|]. split; reflexivity.
Qed.
